(** * Verification of the cinematic loading scene of house-of-letters

    Shallow embedding of [src/unnamed/part_002]: the [LegacyJSONLoader]
    face-record decoder and material resolver, and the asset pipeline,
    camera sequencer and effect update of [LoadingScene]. *)

From Stdlib Require Import ZArith QArith List Lia Psatz Bool Permutation.
From Stdlib Require Import Reals.
Import ListNotations.

(* ================================================================== *)
(** ** LegacyJSONLoader.parse *)

Module Decoder.

Open Scope Z_scope.

(** JS array read [a[i]] at an integer index; [None] is [undefined]. *)
Definition jsget {A} (l : list A) (i : Z) : option A :=
  if i <? 0 then None else nth_error l (Z.to_nat i).

(** [x !== y] on numbers that may be [undefined]. *)
Definition js_neq (x y : option Z) : bool :=
  match x, y with
  | Some a, Some b => negb (a =? b)
  | None, None => false
  | _, _ => true
  end.

(** [(type & m) !== 0].  For the one-bit masks used here [Z.land] agrees
    with JS's [ToInt32] conversion, which keeps the low 32 bits. *)
Definition flag (type m : Z) : bool := negb (Z.land type m =? 0).

(** The face cursor [faces[i++]]: the unread suffix of [faces].  Reading
    past the end yields [undefined] and leaves the cursor past the end. *)
Definition Cursor (A : Type) := list Z -> A * list Z.

Definition ret {A} (a : A) : Cursor A := fun s => (a, s).
Definition bind {A B} (m : Cursor A) (k : A -> Cursor B) : Cursor B :=
  fun s => let (a, s') := m s in k a s'.

Notation "x <- m ;; k" := (bind m (fun x => k))
  (at level 61, m at next level, right associativity).

Definition next : Cursor (option Z) :=
  fun s => match s with [] => (None, []) | x :: s' => (Some x, s') end.

Fixpoint nextN (n : nat) : Cursor (list (option Z)) :=
  match n with
  | O => ret []
  | S n' => x <- next ;; xs <- nextN n' ;; ret (x :: xs)
  end.

Record group := mkGroup {
  g_start : nat; g_count : nat; g_materialIndex : option Z }.

(** Accumulators of the parse loop. *)
Record dstate := mkD {
  positions : list (option Q);
  normalArray : list (option Q);
  uvArray : list (option Q);
  groups : list group;
  currentMaterialIndex : option Z;
  currentGroupStart : nat;
  currentGroupCount : nat }.

Definition init_dstate : dstate := mkD [] [] [] [] (Some 0) 0 0.

Section Parse.

Variables (vertices normals uvs : list Q).

(** [getVertex(index)]; [undefined * 3] is [NaN], and [vertices[NaN]] is
    [undefined]. *)
Definition getVertex (index : option Z) : list (option Q) :=
  match index with
  | Some k => [jsget vertices (k * 3); jsget vertices (k * 3 + 1);
               jsget vertices (k * 3 + 2)]
  | None => [None; None; None]
  end.

(** One entry of [faceUvs]: the guard [uvs.length > uvIndex * 2 + 1]
    is false for [undefined]. *)
Definition uvLookup (uvIndex : option Z) : list (option Q) :=
  match uvIndex with
  | Some u => if Z.of_nat (length uvs) >? u * 2 + 1
              then [jsget uvs (u * 2); jsget uvs (u * 2 + 1)]
              else [Some 0%Q; Some 0%Q]
  | None => [Some 0%Q; Some 0%Q]
  end.

(** One entry of [faceNormals]. *)
Definition normalLookup (normalIndex : option Z) : list (option Q) :=
  match normalIndex with
  | Some n => if Z.of_nat (length normals) >? n * 3 + 2
              then [jsget normals (n * 3); jsget normals (n * 3 + 1);
                    jsget normals (n * 3 + 2)]
              else [Some 0%Q; Some 1%Q; Some 0%Q]
  | None => [Some 0%Q; Some 1%Q; Some 0%Q]
  end.

(** The "Track material groups" block. *)
Definition trackGroup (materialIndex : option Z) (st : dstate) : dstate :=
  if js_neq materialIndex (currentMaterialIndex st) then
    mkD (positions st) (normalArray st) (uvArray st)
        (if (0 <? currentGroupCount st)%nat
         then groups st ++ [mkGroup (currentGroupStart st)
                              (currentGroupCount st) (currentMaterialIndex st)]
         else groups st)
        materialIndex (length (positions st) / 3) 0
  else st.

(** [addTriangle(a, b, c)]. *)
Definition addTriangle (vertexIndices : list (option Z))
    (faceNormals faceUvs : list (list (option Q))) (a b c : nat)
    (st : dstate) : dstate :=
  mkD (positions st ++ getVertex (nth a vertexIndices None)
                    ++ getVertex (nth b vertexIndices None)
                    ++ getVertex (nth c vertexIndices None))
      (if (0 <? length faceNormals)%nat
       then normalArray st ++ nth a faceNormals [] ++ nth b faceNormals []
                           ++ nth c faceNormals []
       else normalArray st)
      (if (0 <? length faceUvs)%nat
       then uvArray st ++ nth a faceUvs [] ++ nth b faceUvs [] ++ nth c faceUvs []
       else uvArray st)
      (groups st) (currentMaterialIndex st) (currentGroupStart st)
      (currentGroupCount st + 3).

(** The triangles of one face: [addTriangle(0,1,2)], and [(0,2,3)] for a
    quad. *)
Definition emitFace (isQuad : bool) (vertexIndices : list (option Z))
    (faceNormals faceUvs : list (list (option Q))) (st : dstate) : dstate :=
  let st := addTriangle vertexIndices faceNormals faceUvs 0 1 2 st in
  if isQuad then addTriangle vertexIndices faceNormals faceUvs 0 2 3 st
  else st.

(** The body of the [while] loop after [type = faces[i++]]. *)
Definition decodeFace (type : Z) (st : dstate) : Cursor dstate :=
  let isQuad := flag type 1 in
  let hasMaterial := flag type 2 in
  let hasFaceVertexUv := flag type 8 in
  let hasFaceNormal := flag type 16 in
  let hasFaceVertexNormal := flag type 32 in
  let hasFaceColor := flag type 64 in
  let hasFaceVertexColor := flag type 128 in
  let numVertices := if isQuad then 4%nat else 3%nat in
  vertexIndices <- nextN numVertices ;;
  materialIndex <- (if hasMaterial then next else ret (Some 0)) ;;
  let st := trackGroup materialIndex st in
  uvIndices <- (if hasFaceVertexUv then nextN numVertices else ret []) ;;
  _ <- (if hasFaceNormal then next else ret None) ;;
  normalIndices <- (if hasFaceVertexNormal then nextN numVertices else ret []) ;;
  _ <- (if hasFaceColor then next else ret None) ;;
  _ <- (if hasFaceVertexColor then nextN numVertices else ret []) ;;
  ret (emitFace isQuad vertexIndices (map normalLookup normalIndices)
                (map uvLookup uvIndices) st).

(** [while (i < faces.length)]; each iteration reads at least the type
    entry, so [length faces] iterations are enough (see [parseFaces_fuel]). *)
Fixpoint parseFaces (fuel : nat) (rest : list Z) (st : dstate) : dstate :=
  match fuel with
  | O => st
  | S f =>
      match rest with
      | [] => st
      | type :: rest' =>
          let (st', rest'') := decodeFace type st rest' in
          parseFaces f rest'' st'
      end
  end.

(** "Add final group". *)
Definition finalGroups (st : dstate) : list group :=
  if (0 <? currentGroupCount st)%nat
  then groups st ++ [mkGroup (currentGroupStart st) (currentGroupCount st)
                       (currentMaterialIndex st)]
  else groups st.

End Parse.

(** The [BufferGeometry] built by [parse]: [geo_normals = None] means the
    normals are synthesized by [computeVertexNormals]; [geo_uvs = None]
    means no [uv] attribute. *)
Record geometry := mkGeometry {
  geo_positions : list (option Q);
  geo_normals : option (list (option Q));
  geo_uvs : option (list (option Q));
  geo_groups : list group }.

Definition empty_geometry : geometry := mkGeometry [] None None [].

Inductive color := ColorHex (h : Z) | ColorRGB (r g b : Q).

Record material := mkMaterial {
  mat_color : color; mat_doubleSide : bool;
  mat_transparent : bool; mat_opacity : Q }.

Record matDesc := mkMatDesc {
  colorDiffuse : option (Q * Q * Q); opacity : option Q }.

(** The JSON payload; an absent key is [None] (an empty array is truthy). *)
Record payload := mkPayload {
  json_vertices : option (list Q);
  json_faces : option (list Z);
  json_normals : option (list Q);
  json_uvs : option (list Q);
  json_materials : option (list matDesc) }.

(** [new THREE.MeshLambertMaterial({side: DoubleSide})] configured from a
    descriptor. *)
Definition resolveMaterial (mat : matDesc) : material :=
  let c := match colorDiffuse mat with
           | Some (r, g, b) => ColorRGB r g b
           | None => ColorHex 16777215
           end in
  match opacity mat with
  | Some o => if negb (Qle_bool 1 o) then mkMaterial c true true o
              else mkMaterial c true false 1
  | None => mkMaterial c true false 1
  end.

Definition default_material : material :=
  mkMaterial (ColorHex 8947848) true false 1.

Definition parseMaterials (json : payload) : list material :=
  let materials := match json_materials json with
                   | Some ms => map resolveMaterial ms
                   | None => []
                   end in
  match materials with [] => [default_material] | _ => materials end.

Definition parse (json : payload) : geometry * list material :=
  match json_vertices json, json_faces json with
  | Some vertices, Some faces =>
      let normals := match json_normals json with Some n => n | None => [] end in
      let uvs := match json_uvs json with Some u => u | None => [] end in
      let st := parseFaces vertices normals uvs (length faces) faces init_dstate in
      (mkGeometry (positions st)
         (if (0 <? length (normalArray st))%nat then Some (normalArray st) else None)
         (if (0 <? length (uvArray st))%nat then Some (uvArray st) else None)
         (finalGroups st),
       parseMaterials json)
  | _, _ => (empty_geometry, [])
  end.

End Decoder.

(* ------------------------------------------------------------------ *)
(** *** Well-formed face streams

    A face record as the decoder lays it out: the type entry, then the
    entries each flag of [decodeFace] dictates, in the order it reads them. *)

Module Faces.
Import Decoder.
Open Scope Z_scope.

Record faceRec := mkFace {
  f_type : Z;
  f_verts : list Z;          (* vertex indices *)
  f_mat : list Z;            (* material index, bit 2 *)
  f_uvs : list Z;            (* face-vertex UV indices, bit 8 *)
  f_faceNormal : list Z;     (* face normal index, bit 16 *)
  f_vertexNormals : list Z;  (* face-vertex normal indices, bit 32 *)
  f_faceColor : list Z;      (* face color, bit 64 *)
  f_vertexColors : list Z }. (* face-vertex colors, bit 128 *)

Definition numVertices (type : Z) : nat := if flag type 1 then 4%nat else 3%nat.
Definition optLen (b : bool) (n : nat) : nat := if b then n else 0%nat.

Definition wfFace (f : faceRec) : Prop :=
  let t := f_type f in
  length (f_verts f) = numVertices t /\
  length (f_mat f) = optLen (flag t 2) 1 /\
  length (f_uvs f) = optLen (flag t 8) (numVertices t) /\
  length (f_faceNormal f) = optLen (flag t 16) 1 /\
  length (f_vertexNormals f) = optLen (flag t 32) (numVertices t) /\
  length (f_faceColor f) = optLen (flag t 64) 1 /\
  length (f_vertexColors f) = optLen (flag t 128) (numVertices t).

Definition faceBody (f : faceRec) : list Z :=
  f_verts f ++ f_mat f ++ f_uvs f ++ f_faceNormal f ++ f_vertexNormals f
    ++ f_faceColor f ++ f_vertexColors f.

Definition encodeFace (f : faceRec) : list Z := f_type f :: faceBody f.

(** The face stream of a list of records. *)
Definition encodeFaces (fs : list faceRec) : list Z := concat (map encodeFace fs).

Definition faceMaterial (f : faceRec) : option Z :=
  match f_mat f with [m] => Some m | _ => Some 0 end.

(** Triangles emitted per face record: one, or two for a quad. *)
Definition faceTris (f : faceRec) : nat := if flag (f_type f) 1 then 2%nat else 1%nat.

Fixpoint sumNat (l : list nat) : nat :=
  match l with [] => 0%nat | x :: l' => (x + sumNat l')%nat end.

(** The positions one face contributes: the fan [(0,1,2)], plus [(0,2,3)]
    for a quad. *)
Definition facePositions (vertices : list Q) (f : faceRec) : list (option Q) :=
  let v k := getVertex vertices (nth k (map Some (f_verts f)) None) in
  v 0%nat ++ v 1%nat ++ v 2%nat
  ++ (if flag (f_type f) 1 then v 0%nat ++ v 2%nat ++ v 3%nat else []).

(** The record with the face-normal, face-color and face-vertex-color flags
    cleared and their entries removed ([208 = 16 + 64 + 128]). *)
Definition stripFace (f : faceRec) : faceRec :=
  mkFace (Z.ldiff (f_type f) 208) (f_verts f) (f_mat f) (f_uvs f) []
         (f_vertexNormals f) [] [].

(** Groups that start at [s], follow each other without gap or overlap,
    and are non-empty. *)
Fixpoint contiguousFrom (s : nat) (gs : list group) : Prop :=
  match gs with
  | [] => True
  | g :: gs' => g_start g = s /\ (0 < g_count g)%nat /\
                contiguousFrom (s + g_count g) gs'
  end.

Definition sumCounts (gs : list group) : nat := sumNat (map g_count gs).

(** One decoder step on a face of the given type. *)
Definition faceStep (vertices normals uvs : list Q) (st : dstate) (f : faceRec)
  : dstate :=
  emitFace vertices (flag (f_type f) 1) (map Some (f_verts f))
    (map (normalLookup normals) (map Some (f_vertexNormals f)))
    (map (uvLookup uvs) (map Some (f_uvs f)))
    (trackGroup (faceMaterial f) st).

(** Loop invariant of the group tracking: the closed groups tile
    [0, currentGroupStart), and the open group ends at the vertex count. *)
Definition groupInv (st : dstate) : Prop :=
  length (positions st) = (3 * (currentGroupStart st + currentGroupCount st))%nat /\
  contiguousFrom 0 (groups st) /\
  sumCounts (groups st) = currentGroupStart st.

(** A cursor action that never moves the cursor backwards. *)
Definition shrinks {A} (m : Cursor A) : Prop :=
  forall s, (length (snd (m s)) <= length s)%nat.

End Faces.

(** Concrete inputs for the decoder. *)
Module DecoderExamples.
Import Decoder Faces.
Open Scope Z_scope.

Definition exVertices : list Q :=
  [0;0;0; 1;0;0; 1;1;0; 0;1;0]%Q.

(** A triangle with a material, face-vertex normals and a face color
    ([98 = 2 + 32 + 64]), then a quad with face-vertex UVs, a face normal and
    face-vertex colors ([153 = 1 + 8 + 16 + 128]). *)
Definition exFaces : list faceRec :=
  [ mkFace 98 [0;1;2] [1] [] [] [0;0;0] [7] [];
    mkFace 153 [0;1;2;3] [] [0;1;2;3] [0] [] [] [5;5;5;5] ].

Definition exPayload : payload :=
  mkPayload (Some exVertices) (Some (encodeFaces exFaces)) None
    (Some [0;0; 1;0; 1;1; 0;1]%Q) None.

(** One plain triangle, [faces = [0, 0, 1, 2]]. *)
Definition oneTriangle : list faceRec := [ mkFace 0 [0;1;2] [] [] [] [] [] [] ].

Definition oneTrianglePayload : payload :=
  mkPayload (Some exVertices) (Some (encodeFaces oneTriangle)) None None None.

(** A stream cut short: the type entry of a quad and nothing after it. *)
Definition truncatedPayload : payload :=
  mkPayload (Some exVertices) (Some [1]) None None None.

End DecoderExamples.

(** The material runs of a face list: maximal blocks of consecutive faces
    with the same material index, each with its number of vertices. *)
Module MaterialRuns.
Import Decoder Faces.

Definition consRun (m : option Z) (c : nat) (rs : list (option Z * nat))
  : list (option Z * nat) :=
  match rs with
  | (m', c') :: rs' => if js_neq m m' then (m, c) :: rs else (m, (c + c')%nat) :: rs'
  | [] => [(m, c)]
  end.

Fixpoint materialRuns (fs : list faceRec) : list (option Z * nat) :=
  match fs with
  | [] => []
  | f :: fs' => consRun (faceMaterial f) (3 * faceTris f) (materialRuns fs')
  end.

Definition groupRun (g : group) : option Z * nat := (g_materialIndex g, g_count g).

End MaterialRuns.

(** Triangles of a face record that carry face-vertex normals (bit 32) and
    face-vertex UVs (bit 8). *)
Module FaceAttributes.
Import Decoder Faces.



End FaceAttributes.

(* ================================================================== *)
(** ** LoadingScene: asset pipeline and camera sequencer

    The scene as the loading code mutates it, one field per [this.*]
    member the claims touch, and the outside events that drive it:
    settlement callbacks of the file and texture loaders, animation
    frames, [start], [skipTransition] and [dispose].  Two counters
    observe the calls of [startCameraTransition] and of the [onComplete]
    callback; the code has no such fields. *)

Module Pipeline.
Open Scope Z_scope.

(** The requests [loadAssets] and [loadDependentAssets] issue: the six
    JSON assets and the terrain texture. *)
Inductive asset :=
  | Building | Roof | Terrain | WhiteBuilding | Corridor | GroupCell
  | Panchromatic.

Definition asset_eq_dec (a b : asset) : {a = b} + {a <> b}.
Proof. decide equality. Defined.

Definition asset_eqb (a b : asset) : bool :=
  if asset_eq_dec a b then true else false.

(** The assets [assetLoaded] counts (all but the texture). *)
Definition isCounted (a : asset) : bool :=
  match a with Panchromatic => false | _ => true end.

(** The loads [loadDependentAssets] issues, in its order. *)
Definition dependents : list asset :=
  [Roof; Terrain; WhiteBuilding; Corridor; GroupCell].

(** How a request settles: [onLoad] ([parses] says whether [JSON.parse]
    and the decoding succeed) or [onError]. *)
Inductive outcome := Delivered (parses : bool) | Failed.

Record scene := mkScene {
  isActive : bool;
  isDisposed : bool;
  onComplete : bool;            (* a callback was registered by [start] *)
  loadedAssets : nat;
  totalAssets : nat;
  active : bool;                (* cameraTransition.active *)
  progress : Q;                 (* cameraTransition.progress *)
  duration : Z;                 (* cameraTransition.duration, in ms *)
  startTime : Z;                (* cameraTransition.startTime *)
  cameraSpline : bool;          (* this.cameraSpline !== null *)
  pending : list asset;         (* requests issued and not yet settled *)
  settled : list asset;         (* settlements delivered, in order *)
  transitionsStarted : nat;     (* calls of startCameraTransition *)
  completionsFired : nat }.     (* calls of onComplete *)

(** The constructor: [init] ends with [loadAssets], which issues the
    building request. *)
Definition init_scene : scene :=
  mkScene false false false 0 6 false 0 18000 0 false [Building] [] 0 0.

Definition issue (a : asset) (s : scene) : scene :=
  mkScene (isActive s) (isDisposed s) (onComplete s) (loadedAssets s)
    (totalAssets s) (active s) (progress s) (duration s) (startTime s)
    (cameraSpline s) (pending s ++ [a]) (settled s) (transitionsStarted s)
    (completionsFired s).

Definition startCameraTransition (now : Z) (s : scene) : scene :=
  mkScene (isActive s) (isDisposed s) (onComplete s) (loadedAssets s)
    (totalAssets s) true 0 (duration s) now true (pending s) (settled s)
    (S (transitionsStarted s)) (completionsFired s).

Definition assetLoaded (now : Z) (s : scene) : scene :=
  let s := mkScene (isActive s) (isDisposed s) (onComplete s)
             (S (loadedAssets s)) (totalAssets s) (active s) (progress s)
             (duration s) (startTime s) (cameraSpline s) (pending s)
             (settled s) (transitionsStarted s) (completionsFired s) in
  if (totalAssets s <=? loadedAssets s)%nat && negb (active s)
  then startCameraTransition now s else s.

Definition loadDependentAssets (s : scene) : scene :=
  fold_left (fun s a => issue a s) dependents s.

(** The callbacks each request was given. *)
Definition handler (a : asset) (o : outcome) (now : Z) (s : scene) : scene :=
  match a with
  | Building =>
      (* success, parse error and load error all run the same two calls *)
      loadDependentAssets (assetLoaded now s)
  | Terrain =>
      match o with
      | Delivered true => assetLoaded now (issue Panchromatic s)
      | _ => assetLoaded now s
      end
  | Roof | WhiteBuilding | Corridor | GroupCell => assetLoaded now s
  | Panchromatic => s
  end.

(** A loader settles a request it was given, once. *)
Definition settle (a : asset) (o : outcome) (now : Z) (s : scene) : scene :=
  if in_dec asset_eq_dec a (pending s) then
    handler a o now
      (mkScene (isActive s) (isDisposed s) (onComplete s) (loadedAssets s)
         (totalAssets s) (active s) (progress s) (duration s) (startTime s)
         (cameraSpline s) (remove asset_eq_dec a (pending s))
         (settled s ++ [a]) (transitionsStarted s) (completionsFired s))
  else s.

(** [updateCameraTransition], restricted to the fields above:
    [rawProgress = elapsed / duration], clamped to 1 on completion. *)
Definition updateCameraTransition (now : Z) (s : scene) : scene :=
  if negb (active s) || negb (cameraSpline s) then s else
  let rawProgress := (inject_Z (now - startTime s) / inject_Z (duration s))%Q in
  if Qle_bool 1 rawProgress then
    mkScene (isActive s) (isDisposed s) (onComplete s) (loadedAssets s)
      (totalAssets s) false 1 (duration s) (startTime s) (cameraSpline s)
      (pending s) (settled s) (transitionsStarted s)
      (if onComplete s then S (completionsFired s) else completionsFired s)
  else
    mkScene (isActive s) (isDisposed s) (onComplete s) (loadedAssets s)
      (totalAssets s) (active s) rawProgress (duration s) (startTime s)
      (cameraSpline s) (pending s) (settled s) (transitionsStarted s)
      (completionsFired s).

(** [animate]: one frame. *)
Definition animate (now : Z) (s : scene) : scene :=
  if isActive s && negb (isDisposed s) then updateCameraTransition now s else s.

(** [start(onComplete)]; [callback] says whether a function is passed. *)
Definition start (callback : bool) (now : Z) (s : scene) : scene :=
  animate now
    (mkScene true (isDisposed s) callback (loadedAssets s) (totalAssets s)
       (active s) (progress s) (duration s) (startTime s) (cameraSpline s)
       (pending s) (settled s) (transitionsStarted s) (completionsFired s)).

Definition skipTransition (s : scene) : scene :=
  if active s then
    mkScene (isActive s) (isDisposed s) (onComplete s) (loadedAssets s)
      (totalAssets s) false 1 (duration s) (startTime s) (cameraSpline s)
      (pending s) (settled s) (transitionsStarted s)
      (if onComplete s then S (completionsFired s) else completionsFired s)
  else s.

Definition dispose (s : scene) : scene :=
  mkScene false true (onComplete s) (loadedAssets s) (totalAssets s)
    (active s) (progress s) (duration s) (startTime s) (cameraSpline s)
    (pending s) (settled s) (transitionsStarted s) (completionsFired s).

Inductive event :=
  | ESettle (a : asset) (o : outcome) (now : Z)
  | EFrame (now : Z)
  | EStart (callback : bool) (now : Z)
  | ESkip
  | EDispose.

Definition step (s : scene) (e : event) : scene :=
  match e with
  | ESettle a o now => settle a o now s
  | EFrame now => animate now s
  | EStart cb now => start cb now s
  | ESkip => skipTransition s
  | EDispose => dispose s
  end.

Definition run (s : scene) (es : list event) : scene := fold_left step es s.

(** Frames and skips only. *)
Definition tickOrSkip (e : event) : bool :=
  match e with EFrame _ | ESkip => true | _ => false end.

(** [skipTransition()] calls. *)
Definition isSkip (e : event) : bool := match e with ESkip => true | _ => false end.

(** [getProgress()]. *)
Definition getProgress (s : scene) : Q := progress s.

(** [isComplete()]: [progress >= 1]. *)
Definition isComplete (s : scene) : bool := Qle_bool 1 (progress s).

End Pipeline.

(** Notions for reasoning about the pipeline. *)
Module PipelineSpec.
Import Pipeline.

(** The requests a settlement handler issues. *)
Definition newRequests (a : asset) (o : outcome) : list asset :=
  match a, o with
  | Building, _ => dependents
  | Terrain, Delivered true => [Panchromatic]
  | _, _ => []
  end.

Definition countedAssets : list asset :=
  [Building; Roof; Terrain; WhiteBuilding; Corridor; GroupCell].

(** Every request issued so far, settled or in flight. *)
Definition requests (s : scene) : list asset := settled s ++ pending s.

(** [assetLoaded]'s increment, for the assets that call it. *)
Definition bump (a : asset) (n : nat) : nat := if isCounted a then S n else n.

(** Invariant of the scenes reachable from the constructor. *)
Record inv (s : scene) : Prop := {
  inv_total : totalAssets s = 6%nat;
  inv_nodup : NoDup (requests s);
  inv_deps : forall d, In d dependents -> In d (requests s) -> In Building (settled s);
  inv_deps_all : In Building (settled s) -> forall d, In d dependents -> In d (requests s);
  inv_tex : In Panchromatic (requests s) -> In Terrain (settled s);
  inv_building : In Building (requests s);
  inv_loaded : loadedAssets s = length (filter isCounted (settled s));
  inv_started : transitionsStarted s = (if (6 <=? loadedAssets s)%nat then 1 else 0)%nat;
  inv_fired : (completionsFired s + (if active s then 1 else 0) <= transitionsStarted s)%nat }.

(** Invariant of the camera transition on reachable scenes. *)
Record camInv (s : scene) : Prop := {
  ci_duration : duration s = 18000%Z;
  ci_spline : cameraSpline s = true <-> (0 < transitionsStarted s)%nat;
  ci_active : active s = true -> cameraSpline s = true /\ (progress s < 1)%Q;
  ci_done : cameraSpline s = true -> active s = false -> (progress s == 1)%Q;
  ci_idle : cameraSpline s = false -> (progress s == 0)%Q }.

End PipelineSpec.

(** Concrete runs of the pipeline. *)
Module PipelineExamples.
Import Pipeline.

(** Every request settles: the building first, then its dependents, the
    terrain parsing and so requesting its texture. *)
Definition allSettled : list event :=
  [ESettle Building Failed 0; ESettle Roof Failed 1;
   ESettle Terrain (Delivered true) 2; ESettle WhiteBuilding (Delivered false) 3;
   ESettle Corridor Failed 4; ESettle GroupCell (Delivered true) 5;
   ESettle Panchromatic Failed 6].

End PipelineExamples.

(* ================================================================== *)
(** ** LoadingScene: easing and damping of the camera

    Numbers are modelled exactly (rationals for the easing, reals where
    [Math.exp] and [Math.sin] appear), not as IEEE doubles. *)

Module Easing.
Local Open Scope Q_scope.

(** JavaScript's [a < b] on numbers. *)
Definition Qltb (x y : Q) : bool := negb (Qle_bool y x).

Definition easeInQuad (t : Q) : Q := t * t.

Definition easeOutQuad (t : Q) : Q := t * (2 - t).

Definition variableSpeedEase (t : Q) : Q :=
  if Qltb t (2 # 10) then easeInQuad (t / (2 # 10)) * (15 # 100)
  else if Qltb t (8 # 10) then
    let middleT := (t - (2 # 10)) / (6 # 10) in (15 # 100) + middleT * (7 # 10)
  else
    let endT := (t - (8 # 10)) / (2 # 10) in (85 # 100) + easeOutQuad endT * (15 # 100).

End Easing.

Module Damping.
Local Open Scope R_scope.

Definition lerp (a b t : R) : R := a + (b - a) * t.

Definition damp (current target smoothing dt : R) : R :=
  lerp current target (1 - exp (- smoothing * dt)).

(** Successive frames damping [current] toward a fixed [target]. *)
Fixpoint dampFrames (smoothing current target : R) (dts : list R) : R :=
  match dts with
  | [] => current
  | dt :: rest => dampFrames smoothing (damp current target smoothing dt) target rest
  end.

Definition sumR (dts : list R) : R := fold_right Rplus 0 dts.

(** [ultraSmoothEase(t)]: a blend of a sine ease and the quintic
    smootherstep. *)
Definition ultraSmoothEase (t : R) : R :=
  let sine := sin (t * PI - PI / 2) * 0.5 + 0.5 in
  let poly := t * t * t * (t * (t * 6 - 15) + 10) in
  sine * 0.3 + poly * 0.7.

End Damping.

(* ================================================================== *)
(** ** LoadingScene.updateVisualEffects *)

Module Effects.
Local Open Scope R_scope.

(** An entry of [dynamicLights]: the light's mutable intensity and height,
    and the constants chosen by [setupLighting] ([isSpotlight] is
    [undefined], hence false, for the point lights). *)
Record dynLight := mkLight {
  l_intensity : R; l_positionY : R;
  baseIntensity : R; phase : R; speed : R; isSpotlight : bool }.

(** The effect state the update reads and writes; [None] where the
    effect object is absent ([if (this.bloomEffect)] and the like). *)
Record fxState := mkFx {
  bloomIntensity : option R;
  vignetteDarkness : option R;
  aberrationOffset : option (R * R);
  dynamicLights : list dynLight;
  dust : option (list (R * R * R) * R);   (* positions, rotation.y *)
  mist : option (R * R);                   (* rotation.y, opacity *)
  background : R * R * R;
  fogDensity : option R;
  toneMappingExposure : R }.

Definition updateLight (time progress : R) (l : dynLight) : dynLight :=
  let pulse := sin (time * speed l + phase l) * 0.5 + 0.5 in
  if isSpotlight l then
    mkLight (baseIntensity l * progress * pulse) (l_positionY l)
      (baseIntensity l) (phase l) (speed l) (isSpotlight l)
  else
    mkLight (baseIntensity l * pulse * (0.3 + progress * 0.7))
      (l_positionY l + sin (time * speed l * 2 + phase l) * 0.1)
      (baseIntensity l) (phase l) (speed l) (isSpotlight l).

(** The dust loop over [positions], one vertex (three entries) per step,
    [i] being the index of the vertex's first entry. *)
Fixpoint updateDust (time : R) (i : nat) (ps : list (R * R * R)) : list (R * R * R) :=
  match ps with
  | [] => []
  | (x, y, z) :: rest =>
      let x' := x + sin (time + INR i) * 0.02 in
      let y' := y + (cos (time * 0.5 + INR i) * 0.01 + 0.005) in
      let z' := z + cos (time + INR i) * 0.02 in
      (x', (if Rlt_dec 150 y' then 0 else y'), z') :: updateDust time (i + 3) rest
  end.

(** [updateVisualEffects(progress, deltaTime)], [now] being the reading of
    [performance.now()]. *)
Definition updateVisualEffects (now progress deltaTime : R) (s : fxState) : fxState :=
  let time := now * 0.001 in
  let aberrationIntensity := 0.0005 + sin (time * 2) * 0.0003 in
  let warmth := progress in
  mkFx
    (option_map (fun _ => 0.3 + progress * 0.8) (bloomIntensity s))
    (option_map (fun _ => 0.5 + progress * 0.3) (vignetteDarkness s))
    (option_map (fun _ => (aberrationIntensity, aberrationIntensity)) (aberrationOffset s))
    (map (updateLight time progress) (dynamicLights s))
    (option_map (fun d => (updateDust time 0 (fst d), snd d + deltaTime * 0.01)) (dust s))
    (option_map (fun m => (fst m - deltaTime * 0.02, 0.15 + progress * 0.15)) (mist s))
    (0.04 + warmth * 0.02, 0.04 + warmth * 0.01, 0.08 - warmth * 0.02)
    (option_map (fun _ => 0.006 + progress * 0.004) (fogDensity s))
    (0.6 + progress * 0.6).

(** The parameters the effect bundle names. *)
Definition effectParams (s : fxState) :=
  (bloomIntensity s, vignetteDarkness s, aberrationOffset s,
   map l_intensity (dynamicLights s), background s, fogDensity s,
   toneMappingExposure s).

(** What [setupLighting] and the effect setup fix once: which effects
    exist, and each light's constants. *)
Definition fxConfig (s : fxState) :=
  (option_map (fun _ => tt) (bloomIntensity s), option_map (fun _ => tt) (vignetteDarkness s),
   option_map (fun _ => tt) (aberrationOffset s), option_map (fun _ => tt) (fogDensity s),
   map (fun l => (baseIntensity l, phase l, speed l, isSpotlight l)) (dynamicLights s)).

(** The effect bundle as a function of the configuration, the clock
    reading and the progress alone. *)
Definition lightIntensity (time progress : R) (c : R * R * R * bool) : R :=
  let '(base, ph, sp, spot) := c in
  let pulse := sin (time * sp + ph) * 0.5 + 0.5 in
  if spot then base * progress * pulse else base * pulse * (0.3 + progress * 0.7).

Definition effectBundle (cfg : option unit * option unit * option unit * option unit *
                                list (R * R * R * bool)) (now progress : R) :=
  let '(hasBloom, hasVignette, hasAberration, hasFog, lights) := cfg in
  let time := now * 0.001 in
  let aberrationIntensity := 0.0005 + sin (time * 2) * 0.0003 in
  (option_map (fun _ => 0.3 + progress * 0.8) hasBloom,
   option_map (fun _ => 0.5 + progress * 0.3) hasVignette,
   option_map (fun _ => (aberrationIntensity, aberrationIntensity)) hasAberration,
   map (lightIntensity time progress) lights,
   (0.04 + progress * 0.02, 0.04 + progress * 0.01, 0.08 - progress * 0.02),
   option_map (fun _ => 0.006 + progress * 0.004) hasFog,
   0.6 + progress * 0.6).

End Effects.

(* ================================================================== *)
(** ** Proofs: the face-record decoder *)

Module DecoderProofs.
Import Decoder Faces.
Open Scope Z_scope.

Lemma nextN_app (n : nat) (l rest : list Z) :
  length l = n -> nextN n (l ++ rest) = (map Some l, rest).
Proof.
  revert l; induction n as [|n IH]; intros [|x l] Hl; simpl in *; try discriminate.
  - reflexivity.
  - unfold bind. simpl. rewrite IH by lia. reflexivity.
Qed.

Lemma optN_app (b : bool) (n : nat) (l rest : list Z) :
  length l = optLen b n ->
  (if b then nextN n else ret []) (l ++ rest) = (map Some l, rest).
Proof.
  destruct b; simpl; intros H.
  - now apply nextN_app.
  - destruct l; [reflexivity | discriminate].
Qed.

Lemma opt1_app (b : bool) (d : option Z) (l rest : list Z) :
  length l = optLen b 1 ->
  (if b then next else ret d) (l ++ rest)
  = ((if b then match l with [x] => Some x | _ => d end else d), rest).
Proof.
  destruct b; simpl; intros H.
  - destruct l as [|x [|y l]]; simpl in H; try discriminate. reflexivity.
  - destruct l; [reflexivity | discriminate].
Qed.

(** A well-formed record is consumed exactly, whatever follows it. *)
Lemma decodeFace_spec vertices normals uvs (f : faceRec) st rest :
  wfFace f ->
  decodeFace vertices normals uvs (f_type f) st (faceBody f ++ rest)
  = (faceStep vertices normals uvs st f, rest).
Proof.
  intros (Hv & Hm & Hu & Hfn & Hvn & Hfc & Hvc).
  unfold faceBody, decodeFace, faceStep, numVertices in *.
  repeat rewrite <- app_assoc.
  unfold bind.
  rewrite nextN_app by exact Hv.
  rewrite opt1_app by exact Hm.
  rewrite optN_app by exact Hu.
  rewrite opt1_app by exact Hfn.
  rewrite optN_app by exact Hvn.
  rewrite opt1_app by exact Hfc.
  rewrite optN_app by exact Hvc.
  unfold ret, faceMaterial.
  destruct (flag (f_type f) 2) eqn:E2.
  - reflexivity.
  - destruct (f_mat f); [reflexivity | discriminate].
Qed.

Lemma wfFace_length (f : faceRec) : wfFace f -> (3 <= length (faceBody f))%nat.
Proof.
  intros (Hv & _). unfold faceBody, numVertices in *.
  rewrite !length_app. destruct (flag (f_type f) 1); lia.
Qed.

(** On a well-formed stream the loop is a fold of [faceStep] over the
    records. *)
Lemma parseFaces_encode vertices normals uvs (fs : list faceRec) fuel st :
  Forall wfFace fs -> (length fs <= fuel)%nat ->
  parseFaces vertices normals uvs fuel (encodeFaces fs) st
  = fold_left (faceStep vertices normals uvs) fs st.
Proof.
  revert fuel st; induction fs as [|f fs IH]; intros fuel st Hwf Hfuel.
  - destruct fuel; reflexivity.
  - inversion Hwf as [|? ? Hf Hfs]; subst.
    destruct fuel as [|fuel]; simpl in Hfuel; [lia|].
    unfold encodeFaces; simpl. unfold encodeFace at 1.
    simpl. rewrite decodeFace_spec by exact Hf.
    apply IH; [exact Hfs | lia].
Qed.

Lemma encodeFaces_length (fs : list faceRec) :
  Forall wfFace fs -> (length fs <= length (encodeFaces fs))%nat.
Proof.
  induction 1 as [|f fs Hf _ IH]; [simpl; lia|].
  unfold encodeFaces in *; simpl. rewrite length_app. simpl. lia.
Qed.

Lemma parse_encode json vertices fs :
  json_vertices json = Some vertices ->
  json_faces json = Some (encodeFaces fs) ->
  Forall wfFace fs ->
  fst (parse json) =
  let normals := match json_normals json with Some n => n | None => [] end in
  let uvs := match json_uvs json with Some u => u | None => [] end in
  let st := fold_left (faceStep vertices normals uvs) fs init_dstate in
  mkGeometry (positions st)
     (if (0 <? length (normalArray st))%nat then Some (normalArray st) else None)
     (if (0 <? length (uvArray st))%nat then Some (uvArray st) else None)
     (finalGroups st).
Proof.
  intros Hv Hf Hwf. unfold parse. rewrite Hv, Hf. simpl.
  rewrite parseFaces_encode; [reflexivity | exact Hwf |].
  now apply encodeFaces_length.
Qed.

Lemma trackGroup_positions mi st : positions (trackGroup mi st) = positions st.
Proof. unfold trackGroup. destruct (js_neq _ _); reflexivity. Qed.

Lemma getVertex_length vertices i : length (getVertex vertices i) = 3%nat.
Proof. destruct i; reflexivity. Qed.

Lemma faceStep_positions vertices normals uvs st f :
  positions (faceStep vertices normals uvs st f)
  = positions st ++ facePositions vertices f.
Proof.
  unfold faceStep, emitFace, addTriangle, facePositions.
  destruct (flag (f_type f) 1); simpl; rewrite trackGroup_positions;
    now rewrite <- ?app_assoc, ?app_nil_r.
Qed.

Lemma fold_positions vertices normals uvs fs st :
  positions (fold_left (faceStep vertices normals uvs) fs st)
  = positions st ++ flat_map (facePositions vertices) fs.
Proof.
  revert st; induction fs as [|f fs IH]; intros st; simpl.
  - now rewrite app_nil_r.
  - rewrite IH, faceStep_positions. now rewrite app_assoc.
Qed.

Lemma facePositions_length vertices f :
  length (facePositions vertices f) = (9 * faceTris f)%nat.
Proof.
  unfold facePositions, faceTris.
  destruct (flag (f_type f) 1); rewrite !length_app, ?getVertex_length;
    simpl; lia.
Qed.

Lemma flat_map_facePositions_length vertices fs :
  length (flat_map (facePositions vertices) fs) = (9 * sumNat (map faceTris fs))%nat.
Proof.
  induction fs as [|f fs IH]; simpl; [reflexivity|].
  rewrite length_app, IH, facePositions_length. lia.
Qed.

Lemma contiguousFrom_snoc s gs g :
  contiguousFrom s gs -> g_start g = (s + sumCounts gs)%nat -> (0 < g_count g)%nat ->
  contiguousFrom s (gs ++ [g]).
Proof.
  revert s; induction gs as [|g' gs IH]; intros s Hc Hs Hpos; unfold sumCounts in *; simpl in *.
  - repeat split; [lia | exact Hpos].
  - destruct Hc as (H1 & H2 & H3). repeat split; try assumption.
    apply IH; [exact H3 | lia | exact Hpos].
Qed.

Lemma sumCounts_snoc gs g : sumCounts (gs ++ [g]) = (sumCounts gs + g_count g)%nat.
Proof.
  unfold sumCounts. induction gs as [|g' gs IH]; simpl; [lia|]. rewrite IH. lia.
Qed.

Lemma div3 n : (3 * n / 3 = n)%nat.
Proof. rewrite Nat.mul_comm. apply Nat.div_mul. lia. Qed.

Lemma trackGroup_inv mi st : groupInv st -> groupInv (trackGroup mi st).
Proof.
  intros (Hlen & Hc & Hs). unfold trackGroup.
  destruct (js_neq mi (currentMaterialIndex st)); [|now repeat split].
  destruct (Nat.ltb_spec 0 (currentGroupCount st)) as [Hpos|Hzero];
    unfold groupInv; cbn [positions groups currentGroupStart currentGroupCount];
    rewrite Hlen.
  - rewrite div3. repeat split; [lia| |].
    + apply contiguousFrom_snoc; simpl; [exact Hc | lia | exact Hpos].
    + rewrite sumCounts_snoc. simpl. lia.
  - replace (currentGroupCount st) with 0%nat by lia.
    rewrite Nat.add_0_r, div3.
    repeat split; [lia | exact Hc | exact Hs].
Qed.

Lemma faceStep_inv vertices normals uvs st f :
  groupInv st -> groupInv (faceStep vertices normals uvs st f).
Proof.
  intros H. pose proof (trackGroup_inv (faceMaterial f) st H) as (Hlen & Hc & Hs).
  unfold faceStep, emitFace, addTriangle.
  destruct (flag (f_type f) 1); unfold groupInv; simpl;
    rewrite ?length_app, ?getVertex_length; repeat split; try assumption; lia.
Qed.

Lemma fold_inv vertices normals uvs fs st :
  groupInv st -> groupInv (fold_left (faceStep vertices normals uvs) fs st).
Proof.
  revert st; induction fs as [|f fs IH]; intros st H; simpl; [exact H|].
  apply IH, faceStep_inv, H.
Qed.

Lemma finalGroups_tile st :
  groupInv st ->
  contiguousFrom 0 (finalGroups st) /\
  (3 * sumCounts (finalGroups st))%nat = length (positions st).
Proof.
  intros (Hlen & Hc & Hs). unfold finalGroups.
  destruct (Nat.ltb_spec 0 (currentGroupCount st)) as [Hpos|Hzero].
  - split.
    + apply contiguousFrom_snoc; simpl; [exact Hc | lia | exact Hpos].
    + rewrite sumCounts_snoc. simpl. lia.
  - split; [exact Hc | lia].
Qed.

Lemma shrinks_ret {A} (a : A) : shrinks (ret a).
Proof. intros s; simpl; lia. Qed.

Lemma shrinks_next : shrinks next.
Proof. intros [|x s]; simpl; lia. Qed.

Lemma shrinks_bind {A B} (m : Cursor A) (k : A -> Cursor B) :
  shrinks m -> (forall a, shrinks (k a)) -> shrinks (bind m k).
Proof.
  intros Hm Hk s. unfold bind. specialize (Hm s).
  destruct (m s) as [a s']. simpl in Hm. specialize (Hk a s'). lia.
Qed.

Lemma shrinks_nextN n : shrinks (nextN n).
Proof.
  induction n as [|n IH]; simpl.
  - apply shrinks_ret.
  - apply shrinks_bind; [apply shrinks_next | intros x].
    apply shrinks_bind; [apply IH | intros xs]. apply shrinks_ret.
Qed.

Lemma shrinks_if {A} (b : bool) (m1 m2 : Cursor A) :
  shrinks m1 -> shrinks m2 -> shrinks (if b then m1 else m2).
Proof. destruct b; auto. Qed.

Lemma decodeFace_shrinks vertices normals uvs type st :
  shrinks (decodeFace vertices normals uvs type st).
Proof.
  unfold decodeFace; cbv zeta.
  repeat (apply shrinks_bind;
          [ first [ apply shrinks_nextN
                  | apply shrinks_if; auto using shrinks_next, shrinks_nextN,
                      shrinks_ret ]
          | intro ]).
  apply shrinks_ret.
Qed.

(** Fuel beyond [length faces] changes nothing: [parse] runs the loop to
    its exit. *)
Lemma parseFaces_fuel vertices normals uvs n m rest st :
  (length rest <= n)%nat -> (length rest <= m)%nat ->
  parseFaces vertices normals uvs n rest st
  = parseFaces vertices normals uvs m rest st.
Proof.
  revert m rest st; induction n as [|n IH]; intros m rest st Hn Hm.
  - destruct rest; [destruct m; reflexivity | simpl in Hn; lia].
  - destruct m as [|m]; [destruct rest; [reflexivity | simpl in Hm; lia]|].
    destruct rest as [|type rest']; [reflexivity|]. simpl.
    pose proof (decodeFace_shrinks vertices normals uvs type st rest') as Hs.
    destruct (decodeFace vertices normals uvs type st rest') as [st' rest''].
    simpl in Hs, Hn, Hm. apply IH; lia.
Qed.

Lemma land_ldiff a b c : Z.land (Z.ldiff a b) c = Z.land a (Z.ldiff c b).
Proof.
  apply Z.bits_inj'; intros n _.
  rewrite !Z.land_spec, !Z.ldiff_spec.
  destruct (Z.testbit a n), (Z.testbit b n), (Z.testbit c n); reflexivity.
Qed.

Lemma flag_strip_kept t m :
  Z.ldiff m 208 = m -> flag (Z.ldiff t 208) m = flag t m.
Proof. intros H. unfold flag. now rewrite land_ldiff, H. Qed.

Lemma flag_strip_cleared t m :
  Z.ldiff m 208 = 0 -> flag (Z.ldiff t 208) m = false.
Proof. intros H. unfold flag. now rewrite land_ldiff, H, Z.land_0_r. Qed.

Lemma wfFace_strip f : wfFace f -> wfFace (stripFace f).
Proof.
  intros (Hv & Hm & Hu & _ & Hvn & _ & _).
  unfold wfFace, stripFace, numVertices; cbn [f_type f_verts f_mat f_uvs
    f_faceNormal f_vertexNormals f_faceColor f_vertexColors].
  rewrite (flag_strip_kept _ 1), (flag_strip_kept _ 2), (flag_strip_kept _ 8),
    (flag_strip_kept _ 32), (flag_strip_cleared _ 16), (flag_strip_cleared _ 64),
    (flag_strip_cleared _ 128) by reflexivity.
  unfold numVertices in *. repeat split; first [assumption | reflexivity].
Qed.

Lemma faceStep_strip vertices normals uvs st f :
  faceStep vertices normals uvs st (stripFace f) = faceStep vertices normals uvs st f.
Proof.
  unfold faceStep, faceMaterial, stripFace; cbn [f_type f_verts f_mat f_uvs
    f_vertexNormals].
  now rewrite (flag_strip_kept _ 1) by reflexivity.
Qed.

Lemma fold_strip vertices normals uvs fs st :
  fold_left (faceStep vertices normals uvs) (map stripFace fs) st
  = fold_left (faceStep vertices normals uvs) fs st.
Proof.
  revert st; induction fs as [|f fs IH]; intros st; simpl; [reflexivity|].
  now rewrite faceStep_strip, IH.
Qed.

End DecoderProofs.

(* ------------------------------------------------------------------ *)
(** *** Claims on the decoder and the material resolver *)

Module DecoderClaims.
Import Decoder Faces DecoderProofs DecoderExamples.
Open Scope Z_scope.

Ltac wf_faces :=
  unfold exFaces, oneTriangle;
  repeat (apply Forall_cons || apply Forall_nil);
  unfold wfFace; vm_compute; repeat split.

(** C5: for a well-formed face stream the decoder emits, per face record,
    the triangle (0,1,2), and also (0,2,3) when the record is a quad: one
    triangle per non-quad record, two per quad record; the position array
    has length 9 times the triangle count. *)
Theorem decode_triangles_per_face json vertices fs
  (Hv : json_vertices json = Some vertices)
  (Hf : json_faces json = Some (encodeFaces fs))
  (Hwf : Forall wfFace fs) :
  geo_positions (fst (parse json)) = flat_map (facePositions vertices) fs /\
  (forall f, length (facePositions vertices f) = 9 * faceTris f)%nat /\
  length (geo_positions (fst (parse json))) = (9 * sumNat (map faceTris fs))%nat.
Proof.
  rewrite (parse_encode json vertices fs Hv Hf Hwf). cbn zeta.
  cbn [geo_positions]. rewrite fold_positions. cbn [positions init_dstate app].
  split; [reflexivity|]. split.
  - apply facePositions_length.
  - apply flat_map_facePositions_length.
Qed.

Lemma decode_triangles_per_face_witness :
  json_vertices exPayload = Some exVertices /\
  json_faces exPayload = Some (encodeFaces exFaces) /\
  Forall wfFace exFaces /\
  length (geo_positions (fst (parse exPayload))) = 27%nat.
Proof.
  split; [reflexivity|]. split; [reflexivity|]. split; [wf_faces|].
  destruct (decode_triangles_per_face exPayload exVertices exFaces
              eq_refl eq_refl ltac:(wf_faces)) as (_ & _ & H).
  rewrite H. reflexivity.
Defined.

(** C4 (as amended): for a well-formed face stream the material groups
    start at 0, follow each other in order without gap or overlap, are
    non-empty, and their counts are vertex counts: they sum to the number
    of emitted vertices ([positions.length / 3]), three times the triangle
    count. *)
Theorem decode_groups_tile json vertices fs
  (Hv : json_vertices json = Some vertices)
  (Hf : json_faces json = Some (encodeFaces fs))
  (Hwf : Forall wfFace fs) :
  contiguousFrom 0 (geo_groups (fst (parse json))) /\
  (3 * sumCounts (geo_groups (fst (parse json))))%nat
    = length (geo_positions (fst (parse json))) /\
  sumCounts (geo_groups (fst (parse json))) = (3 * sumNat (map faceTris fs))%nat.
Proof.
  rewrite (parse_encode json vertices fs Hv Hf Hwf). cbn zeta.
  cbn [geo_groups geo_positions].
  set (normals := match json_normals json with Some n => n | None => [] end).
  set (uvs := match json_uvs json with Some u => u | None => [] end).
  set (st := fold_left (faceStep vertices normals uvs) fs init_dstate).
  assert (Hinv : groupInv st).
  { apply fold_inv. unfold groupInv; simpl. repeat split. }
  destruct (finalGroups_tile st Hinv) as [Hc Hsum].
  assert (Hpos : length (positions st) = (9 * sumNat (map faceTris fs))%nat).
  { unfold st. rewrite fold_positions. apply flat_map_facePositions_length. }
  repeat split; [exact Hc | exact Hsum | lia].
Qed.

Lemma decode_groups_tile_witness :
  json_vertices exPayload = Some exVertices /\
  json_faces exPayload = Some (encodeFaces exFaces) /\
  Forall wfFace exFaces /\
  sumCounts (geo_groups (fst (parse exPayload))) = 9%nat.
Proof.
  split; [reflexivity|]. split; [reflexivity|]. split; [wf_faces|].
  destruct (decode_groups_tile exPayload exVertices exFaces
              eq_refl eq_refl ltac:(wf_faces)) as (_ & _ & H).
  rewrite H. reflexivity.
Defined.

(** C4 counterexample: one plain triangle ([faces = [0, 0, 1, 2]]) gives the
    single group [{start 0, count 3}]; its count sums to 3, not to the
    triangle count 1. *)
Lemma decode_groups_count_vertices_not_triangles :
  Forall wfFace oneTriangle /\
  sumNat (map faceTris oneTriangle) = 1%nat /\
  geo_groups (fst (parse oneTrianglePayload)) = [mkGroup 0 3 (Some 0)] /\
  sumCounts (geo_groups (fst (parse oneTrianglePayload)))
    <> sumNat (map faceTris oneTriangle).
Proof.
  split; [wf_faces|]. split; [reflexivity|]. split; [reflexivity|].
  vm_compute. discriminate.
Qed.

(** C10: the entries read under the face-normal (16), face-color (64) and
    face-vertex-color (128) flags move the cursor by exactly the entries
    the record layout dictates, and nothing else: every well-formed record
    is consumed exactly, and decoding a well-formed stream gives the same
    geometry (positions, normals, UVs, groups) as decoding it with those
    three flags cleared and their entries removed. *)
Theorem face_extra_entries_ignored vertices normals uvs materials fs
  (Hwf : Forall wfFace fs) :
  (forall f st rest, wfFace f ->
     snd (decodeFace vertices (match normals with Some n => n | None => [] end)
            (match uvs with Some u => u | None => [] end)
            (f_type f) st (faceBody f ++ rest)) = rest) /\
  fst (parse (mkPayload (Some vertices) (Some (encodeFaces fs)) normals uvs materials))
  = fst (parse (mkPayload (Some vertices) (Some (encodeFaces (map stripFace fs)))
                  normals uvs materials)).
Proof.
  split.
  - intros f st rest Hf. now rewrite decodeFace_spec.
  - assert (Hwf' : Forall wfFace (map stripFace fs)).
    { apply Forall_map. eapply Forall_impl; [exact wfFace_strip | exact Hwf]. }
    rewrite (parse_encode (mkPayload (Some vertices) (Some (encodeFaces fs))
               normals uvs materials) vertices fs eq_refl eq_refl Hwf).
    rewrite (parse_encode (mkPayload (Some vertices)
               (Some (encodeFaces (map stripFace fs))) normals uvs materials)
               vertices (map stripFace fs) eq_refl eq_refl Hwf').
    cbn [json_normals json_uvs]. now rewrite fold_strip.
Qed.

Lemma face_extra_entries_ignored_witness :
  Forall wfFace exFaces /\
  fst (parse (mkPayload (Some exVertices) (Some (encodeFaces exFaces)) None None None))
  = fst (parse (mkPayload (Some exVertices)
                  (Some (encodeFaces (map stripFace exFaces))) None None None)).
Proof.
  split; [wf_faces|].
  exact (proj2 (face_extra_entries_ignored exVertices None None None exFaces
                  ltac:(wf_faces))).
Defined.

(** C9 (as amended): [parse] resolves one material per descriptor of
    [json.materials], in order, or returns the single default neutral
    material when that list is absent or empty; the count is the number of
    descriptors (at least 1) whatever the groups reference.  On the
    structurally invalid path (no [vertices] or no [faces]) it returns no
    material. *)
Theorem parse_materials json :
  snd (parse json) =
  match json_vertices json, json_faces json with
  | Some _, Some _ =>
      match json_materials json with
      | Some (m :: ms) => map resolveMaterial (m :: ms)
      | _ => [default_material]
      end
  | _, _ => []
  end /\
  length (snd (parse json)) =
  match json_vertices json, json_faces json with
  | Some _, Some _ =>
      match json_materials json with
      | Some ms => Nat.max 1 (length ms)
      | None => 1%nat
      end
  | _, _ => 0%nat
  end.
Proof.
  assert (Hm : snd (parse json) =
    match json_vertices json, json_faces json with
    | Some _, Some _ =>
        match json_materials json with
        | Some (m :: ms) => map resolveMaterial (m :: ms)
        | _ => [default_material]
        end
    | _, _ => []
    end).
  { unfold parse, parseMaterials.
    destruct (json_vertices json), (json_faces json); try reflexivity.
    destruct (json_materials json) as [[|m ms]|]; reflexivity. }
  split; [exact Hm|]. rewrite Hm.
  destruct (json_vertices json), (json_faces json); try reflexivity.
  destruct (json_materials json) as [[|m ms]|]; simpl; try reflexivity.
  now rewrite length_map.
Qed.

(** C9 counterexample: a payload without [vertices] yields no material at
    all; a valid payload with two descriptors whose single triangle uses
    material 0 yields two materials for one referenced index. *)
Lemma parse_materials_not_distinct_indices :
  length (snd (parse (mkPayload None None None None None))) = 0%nat /\
  let json := mkPayload (Some exVertices) (Some (encodeFaces oneTriangle)) None None
                (Some [mkMatDesc None None; mkMatDesc None (Some (1#2)%Q)]) in
  map g_materialIndex (geo_groups (fst (parse json))) = [Some 0] /\
  length (snd (parse json)) = 2%nat.
Proof. split; [reflexivity|]. split; reflexivity. Qed.

End DecoderClaims.

(* ================================================================== *)
(** ** Proofs: the asset pipeline and the camera sequencer *)

Module PipelineProofs.
Import Pipeline PipelineSpec.

Lemma loadDependentAssets_spec s :
  loadDependentAssets s =
  mkScene (isActive s) (isDisposed s) (onComplete s) (loadedAssets s)
    (totalAssets s) (active s) (progress s) (duration s) (startTime s)
    (cameraSpline s) (pending s ++ dependents) (settled s)
    (transitionsStarted s) (completionsFired s).
Proof. destruct s. unfold loadDependentAssets, issue, dependents. simpl. rewrite <- !app_assoc. reflexivity. Qed.

Lemma settle_spec a o now s :
  In a (pending s) ->
  settle a o now s =
  let loaded := bump a (loadedAssets s) in
  let fire := isCounted a && (totalAssets s <=? loaded)%nat && negb (active s) in
  mkScene (isActive s) (isDisposed s) (onComplete s) loaded (totalAssets s)
    (if fire then true else active s) (if fire then 0%Q else progress s)
    (duration s) (if fire then now else startTime s)
    (if fire then true else cameraSpline s)
    (remove asset_eq_dec a (pending s) ++ newRequests a o) (settled s ++ [a])
    (if fire then S (transitionsStarted s) else transitionsStarted s)
    (completionsFired s).
Proof.
  intros H. unfold settle. destruct (in_dec asset_eq_dec a (pending s)) as [_|n];
    [|contradiction].
  destruct s as [ia idp oc la ta act pr du st cs pe se ts cf]; simpl in *.
  destruct a; [| | destruct o as [[|]|] | | | |]; unfold handler;
    rewrite ?loadDependentAssets_spec; unfold assetLoaded, startCameraTransition, bump, issue, newRequests; simpl;
    try destruct (_ <=? _)%nat; destruct act; simpl; rewrite ?app_nil_r, <- ?app_assoc; reflexivity.
Qed.

Lemma perm_remove (a : asset) l :
  NoDup l -> In a l -> Permutation l (a :: remove asset_eq_dec a l).
Proof.
  induction l as [|x l IH]; intros Hnd Hin; [destruct Hin|].
  inversion Hnd as [|? ? Hx Hl]; subst. simpl.
  destruct (asset_eq_dec a x) as [->|Hne].
  - rewrite notin_remove by exact Hx. reflexivity.
  - destruct Hin as [->|Hin]; [congruence|].
    rewrite (IH Hl Hin) at 1. apply perm_swap.
Qed.

Lemma nodup_app_disjoint (l1 l2 : list asset) x :
  NoDup (l1 ++ l2) -> In x l2 -> ~ In x l1.
Proof.
  intros Hnd H2 H1. apply in_split in H2 as (p & q & ->).
  rewrite app_assoc in Hnd. apply NoDup_remove_2 in Hnd.
  apply Hnd, in_app_iff. left. apply in_app_iff. now left.
Qed.

Lemma counted_le_6 l : NoDup l -> (length (filter isCounted l) <= 6)%nat.
Proof.
  intros Hnd. change 6%nat with (length countedAssets).
  apply NoDup_incl_length; [now apply NoDup_filter|].
  intros x Hx. apply filter_In in Hx as [_ Hc].
  destruct x; simpl in *; tauto || discriminate.
Qed.

Lemma nodup_dependents : NoDup dependents.
Proof.
  unfold dependents.
  repeat constructor; simpl; intuition discriminate.
Qed.

Lemma inv_init : inv init_scene.
Proof.
  constructor; unfold requests; simpl; try reflexivity.
  - repeat constructor. simpl; tauto.
  - intros d Hd [<-|[]]. simpl in Hd. intuition discriminate.
  - intros [].
  - intros [H|[]]. discriminate.
  - now left.
Qed.

Lemma settle_requests a o now s :
  In a (pending s) -> NoDup (pending s) ->
  Permutation (requests (settle a o now s)) (requests s ++ newRequests a o).
Proof.
  intros Hin Hnd. rewrite settle_spec by exact Hin. unfold requests. cbn.
  rewrite <- !app_assoc. apply Permutation_app_head. cbn.
  change (a :: remove asset_eq_dec a (pending s) ++ newRequests a o)
    with ((a :: remove asset_eq_dec a (pending s)) ++ newRequests a o).
  apply Permutation_app_tail. symmetry. now apply perm_remove.
Qed.

Lemma inv_settle a o now s : inv s -> inv (settle a o now s).
Proof.
  intros I.
  destruct (in_dec asset_eq_dec a (pending s)) as [Hin|Hout];
    [|unfold settle; destruct (in_dec _ _ _); [contradiction | exact I]].
  pose proof (inv_nodup s I) as Hnd. unfold requests in Hnd.
  assert (Hpnd : NoDup (pending s)) by exact (NoDup_app_remove_l _ _ Hnd).
  assert (Hnots : ~ In a (settled s)) by exact (nodup_app_disjoint _ _ _ Hnd Hin).
  pose proof (settle_requests a o now s Hin Hpnd) as Hperm.
  assert (Hreq : forall x, In x (requests (settle a o now s)) <->
                           In x (requests s) \/ In x (newRequests a o)).
  { intros x. rewrite <- in_app_iff. split; apply Permutation_in;
      [exact Hperm | symmetry; exact Hperm]. }
  assert (Hfresh : forall x, In x (requests s) -> ~ In x (newRequests a o)).
  { intros x Hx Hn. destruct a; [| | destruct o as [[|]|] | | | |];
      simpl in Hn; try contradiction.
    - apply Hnots. exact (inv_deps s I x Hn Hx).
    - destruct Hn as [<-|[]]. apply Hnots. exact (inv_tex s I Hx). }
  assert (Hnew : NoDup (newRequests a o)).
  { destruct a; [| | destruct o as [[|]|] | | | |]; simpl;
      try apply nodup_dependents; repeat constructor; simpl; tauto. }
  assert (Hset : NoDup (settled s ++ [a])).
  { apply NoDup_app; [exact (NoDup_app_remove_r _ _ Hnd) | repeat constructor; tauto |].
    intros x Hx [<-|[]]. exact (Hnots Hx). }
  pose proof (counted_le_6 _ Hset) as Hle.
  rewrite filter_app, length_app in Hle.
  pose proof (inv_loaded s I) as Hl. pose proof (inv_started s I) as Hs.
  pose proof (inv_fired s I) as Hf. pose proof (inv_total s I) as Ht.
  constructor.
  - rewrite settle_spec by exact Hin. exact Ht.
  - apply (Permutation_NoDup (l := requests s ++ newRequests a o));
      [symmetry; exact Hperm|].
    apply NoDup_app; [exact Hnd | exact Hnew | exact Hfresh].
  - intros d Hd Hr. rewrite settle_spec by exact Hin. cbn. apply in_app_iff.
    apply Hreq in Hr as [Hr|Hr]; [left; exact (inv_deps s I d Hd Hr)|].
    right. destruct a; [| | destruct o as [[|]|] | | | |]; simpl in Hr;
      try contradiction; [now left|].
    destruct Hr as [<-|[]]. simpl in Hd. intuition discriminate.
  - intros Hb d Hd. apply Hreq. rewrite settle_spec in Hb by exact Hin. cbn in Hb.
    apply in_app_iff in Hb as [Hb|[->|[]]].
    + left. exact (inv_deps_all s I Hb d Hd).
    + right. exact Hd.
  - intros Hp. rewrite settle_spec by exact Hin. cbn. apply in_app_iff.
    apply Hreq in Hp as [Hp|Hp]; [left; exact (inv_tex s I Hp)|].
    right. destruct a; [| | destruct o as [[|]|] | | | |]; simpl in Hp;
      try contradiction; [|now left].
    intuition discriminate.
  - apply Hreq. left. exact (inv_building s I).
  - rewrite settle_spec by exact Hin. cbn. rewrite filter_app, length_app, <- Hl.
    unfold bump. simpl. destruct (isCounted a); simpl; lia.
  - rewrite settle_spec by exact Hin. cbn [totalAssets transitionsStarted loadedAssets active].
    rewrite Ht. unfold bump in *. cbn [filter] in Hle. rewrite <- Hl in Hle.
    destruct (isCounted a) eqn:Hc; cbn [length andb] in Hle |- *; [|exact Hs].
    rewrite Hs in Hf |- *. destruct (Nat.leb_spec 6 (loadedAssets s)); [lia|].
    destruct (active s); [cbn in Hf; lia|]. rewrite andb_true_r.
    destruct (Nat.leb_spec 6 (S (loadedAssets s))); reflexivity.
  - rewrite settle_spec by exact Hin.
    cbn [totalAssets transitionsStarted loadedAssets active completionsFired].
    rewrite Ht. unfold bump in *. cbn [filter] in Hle. rewrite <- Hl in Hle.
    destruct (isCounted a) eqn:Hc; cbn [length andb] in Hle |- *; [|exact Hf].
    rewrite Hs in Hf. destruct (Nat.leb_spec 6 (loadedAssets s)); [lia|].
    destruct (active s); [cbn in Hf; lia|]. rewrite andb_true_r.
    destruct (Nat.leb_spec 6 (S (loadedAssets s))); cbn; lia.
Qed.


Lemma inv_same_data s s' :
  inv s -> totalAssets s' = totalAssets s -> pending s' = pending s ->
  settled s' = settled s -> loadedAssets s' = loadedAssets s ->
  transitionsStarted s' = transitionsStarted s ->
  (completionsFired s' + (if active s' then 1 else 0)
     <= completionsFired s + (if active s then 1 else 0))%nat ->
  inv s'.
Proof.
  intros I Ht Hp Hs Hl Htr Hc. destruct I.
  constructor; unfold requests in *; rewrite ?Ht, ?Hp, ?Hs, ?Hl, ?Htr; auto. lia.
Qed.

Lemma inv_update now s : inv s -> inv (updateCameraTransition now s).
Proof.
  intros I. unfold updateCameraTransition.
  destruct (negb (active s) || negb (cameraSpline s)) eqn:E; [exact I|].
  apply orb_false_iff in E as [Ea _]. apply negb_false_iff in Ea.
  destruct (Qle_bool _ _); apply (inv_same_data s); cbn; try reflexivity;
    try exact I.
  rewrite Ea. destruct (onComplete s); lia.
Qed.

Lemma inv_animate now s : inv s -> inv (animate now s).
Proof.
  intros I. unfold animate. destruct (_ && _); [now apply inv_update | exact I].
Qed.

Lemma inv_step s e : inv s -> inv (step s e).
Proof.
  intros I. destruct e as [a o now|now|cb now| |]; cbn [step].
  - now apply inv_settle.
  - now apply inv_animate.
  - apply inv_animate. apply (inv_same_data s); cbn; try reflexivity; try exact I; lia.
  - unfold skipTransition. destruct (active s) eqn:Ea; [|exact I].
    apply (inv_same_data s); cbn; try reflexivity; try exact I.
    rewrite Ea. destruct (onComplete s); lia.
  - apply (inv_same_data s); cbn; try reflexivity; try exact I; lia.
Qed.

Lemma inv_run s es : inv s -> inv (run s es).
Proof.
  revert s; induction es as [|e es IH]; intros s I; [exact I|].
  apply IH, inv_step, I.
Qed.

Lemma inv_reachable es : inv (run init_scene es).
Proof. apply inv_run, inv_init. Qed.

Lemma run_app s es es' : run s (es ++ es') = run (run s es) es'.
Proof. unfold run. apply fold_left_app. Qed.

Lemma loaded_le_6 s : inv s -> (loadedAssets s <= 6)%nat.
Proof.
  intros I. rewrite (inv_loaded s I). apply counted_le_6.
  exact (NoDup_app_remove_r _ _ (inv_nodup s I)).
Qed.

Lemma started_le_1 s : inv s -> (transitionsStarted s <= 1)%nat.
Proof. intros I. rewrite (inv_started s I). destruct (_ <=? _)%nat; lia. Qed.

(** Only [startCameraTransition] turns the transition on, and it counts. *)
Lemma step_activation s e :
  active s = false -> active (step s e) = true ->
  transitionsStarted (step s e) = S (transitionsStarted s).
Proof.
  intros Hoff Hon. destruct e as [a o now|now|cb now| |]; cbn [step] in *.
  - destruct (in_dec asset_eq_dec a (pending s)) as [Hin|Hout].
    + rewrite settle_spec in * by exact Hin. cbn in *.
      destruct (_ && _ && _); [reflexivity | congruence].
    + unfold settle in *. destruct (in_dec _ _ _); [contradiction | congruence].
  - unfold animate, updateCameraTransition in *. rewrite Hoff in Hon.
    destruct (_ && _); [|congruence]. cbn in Hon. congruence.
  - unfold start, animate, updateCameraTransition in *. cbn in *. rewrite Hoff in Hon.
    destruct (negb (isDisposed s)); cbn in Hon; congruence.
  - unfold skipTransition in *. rewrite Hoff in Hon. congruence.
  - cbn in Hon. congruence.
Qed.

Lemma step_started_mono s e :
  (transitionsStarted s <= transitionsStarted (step s e))%nat.
Proof.
  destruct e as [a o now|now|cb now| |]; cbn [step].
  - destruct (in_dec asset_eq_dec a (pending s)) as [Hin|Hout].
    + rewrite settle_spec by exact Hin. cbn. destruct (_ && _ && _); lia.
    + unfold settle. destruct (in_dec _ _ _); [contradiction | lia].
  - unfold animate, updateCameraTransition.
    destruct (_ && _); [|lia]. destruct (_ || _); [lia|].
    destruct (Qle_bool _ _); cbn; lia.
  - unfold start, animate, updateCameraTransition. cbn.
    destruct (negb (isDisposed s)); cbn; [|lia]. destruct (_ || _); [cbn; lia|].
    destruct (Qle_bool _ _); cbn; lia.
  - unfold skipTransition. destruct (active s); cbn; lia.
  - cbn. lia.
Qed.

(** With the transition off, no event fires the completion callback. *)
Lemma step_inactive_fired s e :
  active s = false -> completionsFired (step s e) = completionsFired s.
Proof.
  intros Hoff. destruct e as [a o now|now|cb now| |]; cbn [step].
  - destruct (in_dec asset_eq_dec a (pending s)) as [Hin|Hout].
    + rewrite settle_spec by exact Hin. reflexivity.
    + unfold settle. destruct (in_dec _ _ _); [contradiction | reflexivity].
  - unfold animate, updateCameraTransition. rewrite Hoff.
    destruct (_ && _); reflexivity.
  - unfold start, animate, updateCameraTransition. cbn. rewrite Hoff.
    destruct (negb (isDisposed s)); reflexivity.
  - unfold skipTransition. rewrite Hoff. reflexivity.
  - reflexivity.
Qed.

Lemma terminal_stays es es' :
  let s := run init_scene es in
  transitionsStarted s = 1%nat -> active s = false ->
  active (run s es') = false /\ completionsFired (run s es') = completionsFired s /\
  transitionsStarted (run s es') = 1%nat.
Proof.
  revert es; induction es' as [|e es' IH]; intros es s Ht Ha; [now repeat split|].
  change (run s (e :: es')) with (run (step s e) es').
  assert (Hs1 : step s e = run init_scene (es ++ [e])).
  { unfold s. rewrite run_app. reflexivity. }
  pose proof (started_le_1 _ (inv_reachable (es ++ [e]))) as Hle.
  rewrite <- Hs1 in Hle.
  pose proof (step_started_mono s e) as Hmono.
  assert (Ht1 : transitionsStarted (step s e) = 1%nat) by lia.
  assert (Ha1 : active (step s e) = false).
  { destruct (active (step s e)) eqn:E; [|reflexivity].
    pose proof (step_activation s e Ha E). lia. }
  rewrite Hs1 in Ht1, Ha1 |- *.
  destruct (IH (es ++ [e]) Ht1 Ha1) as (H1 & H2 & H3).
  repeat split; [exact H1 | | exact H3].
  rewrite H2, <- Hs1. apply step_inactive_fired, Ha.
Qed.


Lemma step_settled_incl s e : incl (settled s) (settled (step s e)).
Proof.
  intros x Hx. destruct e as [a o now|now|cb now| |]; cbn [step].
  - destruct (in_dec asset_eq_dec a (pending s)) as [Hin|Hout].
    + rewrite settle_spec by exact Hin. cbn. apply in_app_iff. now left.
    + unfold settle. destruct (in_dec _ _ _); [contradiction | exact Hx].
  - unfold animate, updateCameraTransition.
    destruct (_ && _); [|exact Hx]. destruct (_ || _); [exact Hx|].
    destruct (Qle_bool _ _); exact Hx.
  - unfold start, animate, updateCameraTransition. cbn.
    destruct (negb (isDisposed s)); cbn; [|exact Hx]. destruct (_ || _); [exact Hx|].
    destruct (Qle_bool _ _); exact Hx.
  - unfold skipTransition. destruct (active s); exact Hx.
  - exact Hx.
Qed.

Lemma run_settled_incl s es : incl (settled s) (settled (run s es)).
Proof.
  revert s; induction es as [|e es IH]; intros s; [intros x Hx; exact Hx|].
  intros x Hx. apply (IH (step s e)), step_settled_incl, Hx.
Qed.

(** Requests in flight settle in any order. *)
Lemma settle_any_order (p : list asset) (os : asset -> outcome) now s :
  inv s -> NoDup p -> incl p (pending s) ->
  incl p (settled (run s (map (fun d => ESettle d (os d) now) p))).
Proof.
  revert s; induction p as [|a p IH]; intros s I Hnd Hinc; [intros x []|].
  inversion Hnd as [|? ? Ha Hp]; subst.
  assert (Hin : In a (pending s)) by (apply Hinc; now left).
  set (s1 := settle a (os a) now s).
  change (run s (map (fun d => ESettle d (os d) now) (a :: p)))
    with (run s1 (map (fun d => ESettle d (os d) now) p)).
  assert (I1 : inv s1) by (apply inv_settle, I).
  assert (Hinc1 : incl p (pending s1)).
  { intros x Hx. unfold s1. rewrite settle_spec by exact Hin. cbn.
    apply in_app_iff. left. apply in_in_remove.
    - intros ->. exact (Ha Hx).
    - apply Hinc. now right. }
  intros x [<-|Hx].
  - apply run_settled_incl. unfold s1. rewrite settle_spec by exact Hin. cbn.
    apply in_app_iff. right. now left.
  - exact (IH s1 I1 Hp Hinc1 x Hx).
Qed.

End PipelineProofs.

(* ------------------------------------------------------------------ *)
(** *** Claims on the asset pipeline and the camera sequencer *)

Module PipelineClaims.
Import Pipeline PipelineSpec PipelineProofs.

(** C1: along every sequence of events from the constructor, in any
    order, [loadedAssets] counts the settlements of the six assets (each
    settlement of one of them, success or failure, adds exactly one; the
    texture adds none), never exceeds the total 6, and
    [startCameraTransition] has run once exactly when the count is 6, and
    never before or twice. *)
Theorem settlements_counted_once_and_start_once (es : list event) :
  let s := run init_scene es in
  loadedAssets s = length (filter isCounted (settled s)) /\
  totalAssets s = 6%nat /\ (loadedAssets s <= 6)%nat /\
  transitionsStarted s = (if (loadedAssets s =? 6)%nat then 1 else 0)%nat /\
  (forall a o now,
     loadedAssets (step s (ESettle a o now)) =
     if in_dec asset_eq_dec a (pending s) then bump a (loadedAssets s)
     else loadedAssets s).
Proof.
  intros s. pose proof (inv_reachable es) as I. fold s in I.
  pose proof (loaded_le_6 s I) as Hle.
  split; [exact (inv_loaded s I)|]. split; [exact (inv_total s I)|].
  split; [exact Hle|]. split.
  - rewrite (inv_started s I).
    destruct (Nat.leb_spec 6 (loadedAssets s)), (Nat.eqb_spec (loadedAssets s) 6);
      reflexivity || lia.
  - intros a o now. cbn [step].
    destruct (in_dec asset_eq_dec a (pending s)) as [Hin|Hout].
    + rewrite settle_spec by exact Hin. reflexivity.
    + unfold settle. destruct (in_dec _ _ _); [contradiction | reflexivity].
Qed.

(** C2: [skipTransition] on an inactive transition changes nothing; on an
    active one it sets [progress] to 1, turns the transition off and calls
    the registered [onComplete] once; a second skip changes nothing.  Along
    every sequence of events (frames, skips and the rest) the callback runs
    at most once, and once the transition has run and stopped it never
    turns on again nor calls the callback again. *)
Theorem skip_and_completion_at_most_once (es : list event) :
  let s := run init_scene es in
  (active s = false -> skipTransition s = s) /\
  (active s = true -> onComplete s = true ->
     progress (skipTransition s) = 1%Q /\ active (skipTransition s) = false /\
     completionsFired (skipTransition s) = S (completionsFired s)) /\
  skipTransition (skipTransition s) = skipTransition s /\
  (completionsFired s <= 1)%nat /\
  (transitionsStarted s = 1%nat -> active s = false -> forall es',
     active (run s es') = false /\ completionsFired (run s es') = completionsFired s).
Proof.
  intros s. pose proof (inv_reachable es) as I. fold s in I.
  split; [intros H; unfold skipTransition; now rewrite H|].
  split; [intros Ha Hc; unfold skipTransition; rewrite Ha, Hc; now repeat split|].
  split.
  { unfold skipTransition. destruct (active s) eqn:Ha; cbn; [reflexivity|].
    now rewrite Ha. }
  split.
  - pose proof (inv_fired s I). pose proof (started_le_1 s I). lia.
  - intros Ht Ha es'. destruct (terminal_stays es es' Ht Ha) as (H1 & H2 & _).
    split; assumption.
Qed.

(** C7: no dependent load is issued before the building has settled; the
    step that issues one is the building's settlement (success, parse error
    or load error alike), and it issues all five at once; once issued, the
    five settle in any order. *)
Theorem dependents_wait_for_building (es : list event) (e : event) :
  let s := run init_scene es in
  (forall d, In d dependents -> In d (requests s) -> In Building (settled s)) /\
  (forall d, In d dependents -> ~ In d (requests s) -> In d (requests (step s e)) ->
     (exists o now, e = ESettle Building o now) /\ In Building (pending s) /\
     incl dependents (pending (step s e))) /\
  (forall (p : list asset) (os : asset -> outcome) now,
     Permutation p dependents -> incl dependents (pending s) ->
     incl dependents (settled (run s (map (fun d => ESettle d (os d) now) p)))).
Proof.
  intros s. pose proof (inv_reachable es) as I. fold s in I.
  split; [exact (inv_deps s I)|]. split.
  - intros d Hd Hnot Hnew.
    destruct e as [a o now|now|cb now| |]; cbn [step] in Hnew |- *.
    + destruct (in_dec asset_eq_dec a (pending s)) as [Hin|Hout].
      * pose proof (settle_requests a o now s Hin
          (NoDup_app_remove_l _ _ (inv_nodup s I))) as Hperm.
        apply (Permutation_in _ Hperm), in_app_iff in Hnew as [Hr|Hn];
          [contradiction|].
        destruct a; [| | destruct o as [[|]|] | | | |]; simpl in Hn;
          try contradiction.
        -- split; [now exists o, now|]. split; [exact Hin|].
           rewrite settle_spec by exact Hin. cbn. intros x Hx.
           apply in_app_iff. now right.
        -- destruct Hn as [<-|[]]. simpl in Hd. intuition discriminate.
      * unfold settle in Hnew. destruct (in_dec _ _ _); contradiction.
    + exfalso. apply Hnot. revert Hnew. unfold requests, animate,
        updateCameraTransition.
      destruct (_ && _); [|tauto]. destruct (_ || _); [tauto|].
      destruct (Qle_bool _ _); tauto.
    + exfalso. apply Hnot. revert Hnew. unfold requests, start, animate,
        updateCameraTransition. cbn.
      destruct (negb (isDisposed s)); cbn; [|tauto]. destruct (_ || _); [tauto|].
      destruct (Qle_bool _ _); tauto.
    + exfalso. apply Hnot. revert Hnew. unfold requests, skipTransition.
      destruct (active s); tauto.
    + contradiction.
  - intros p os now Hperm Hinc x Hx.
    apply (settle_any_order p os now s I).
    + apply (Permutation_NoDup (l := dependents)); [symmetry; exact Hperm|].
      apply nodup_dependents.
    + intros y Hy. apply Hinc. apply (Permutation_in _ Hperm), Hy.
    + apply (Permutation_in _ (Permutation_sym Hperm)), Hx.
Qed.

End PipelineClaims.

(* ================================================================== *)
(** ** Proofs: easing, damping and the effect update *)

Module MotionProofs.

Section EasingFacts.
Import Easing.
Local Open Scope Q_scope.

Lemma Qltb_spec x y : Qltb x y = true <-> x < y.
Proof.
  unfold Qltb. rewrite negb_true_iff. split.
  - intros H. apply Qnot_le_lt. intros Hle. apply Qle_bool_iff in Hle. congruence.
  - intros H. destruct (Qle_bool y x) eqn:E; [|reflexivity].
    apply Qle_bool_iff in E. exfalso. apply (Qlt_not_le _ _ H E).
Qed.

Lemma Qltb_false x y : Qltb x y = false <-> y <= x.
Proof. unfold Qltb. rewrite negb_false_iff. apply Qle_bool_iff. Qed.

Ltac qcase x c := let E := fresh "E" in
  destruct (Qltb x c) eqn:E; [apply Qltb_spec in E | apply Qltb_false in E].

Lemma variableSpeedEase_mono x y :
  0 <= x -> x <= y -> y <= 1 -> variableSpeedEase x <= variableSpeedEase y.
Proof.
  intros H0 Hxy H1. unfold variableSpeedEase, easeInQuad, easeOutQuad.
  repeat match goal with |- context [Qltb ?a ?b] => qcase a b end;
  cbv zeta; unfold Qdiv;
  try setoid_replace (/ (2 # 10)) with 5 by reflexivity;
  try setoid_replace (/ (6 # 10)) with (10 # 6) by reflexivity;
  nra.
Qed.

End EasingFacts.

Section DampingFacts.
Import Damping.
Local Open Scope R_scope.

Lemma damp_gap current target k dt :
  target - damp current target k dt = (target - current) * exp (- k * dt).
Proof. unfold damp, lerp. ring. Qed.

Lemma dampFrames_gap k current target dts :
  target - dampFrames k current target dts = (target - current) * exp (- k * sumR dts).
Proof.
  revert current; induction dts as [|dt dts IH]; intros current; simpl.
  - unfold sumR; simpl. replace (- k * 0) with 0 by ring. rewrite exp_0. ring.
  - rewrite IH, damp_gap. unfold sumR; simpl. fold (sumR dts).
    replace (- k * (dt + sumR dts)) with (- k * dt + - k * sumR dts) by ring.
    rewrite exp_plus. ring.
Qed.

Lemma sumR_nonneg dts : Forall (fun dt => 0 <= dt) dts -> 0 <= sumR dts.
Proof.
  induction 1 as [|dt dts Hdt _ IH]; unfold sumR; simpl; [lra|]. fold (sumR dts). lra.
Qed.

Lemma Forall_firstn_R (P : R -> Prop) n l : Forall P l -> Forall P (firstn n l).
Proof.
  revert l; induction n as [|n IH]; intros l Hl; [constructor|].
  destruct Hl as [|x l Hx Hl]; simpl; [constructor|]. constructor; [exact Hx|]. now apply IH.
Qed.

Lemma exp_le_1 x : x <= 0 -> exp x <= 1.
Proof.
  intros H. destruct (Req_dec x 0) as [->|Hne]; [rewrite exp_0; lra|].
  left. rewrite <- exp_0. apply exp_increasing. lra.
Qed.

Lemma dampFrames_bounds k dts :
  0 < k -> Forall (fun dt => 0 <= dt) dts -> 0 <= dampFrames k 0 10 dts < 10.
Proof.
  intros Hk Hd. pose proof (dampFrames_gap k 0 10 dts) as G.
  pose proof (sumR_nonneg dts Hd) as Hs.
  pose proof (exp_pos (- k * sumR dts)) as Hp.
  assert (exp (- k * sumR dts) <= 1) by (apply exp_le_1; nra).
  lra.
Qed.

Lemma dampFrames_converges k :
  0 < k -> forall eps, 0 < eps -> exists T, forall dts,
    Forall (fun dt => 0 <= dt) dts -> T <= sumR dts -> 10 - dampFrames k 0 10 dts < eps.
Proof.
  intros Hk eps He. exists ((Rabs (ln (eps / 10)) + 1) / k).
  intros dts Hd HT. rewrite dampFrames_gap.
  assert (Hkt : Rabs (ln (eps / 10)) + 1 <= k * sumR dts).
  { apply (Rmult_le_compat_l k) in HT; [|lra].
    replace (k * ((Rabs (ln (eps / 10)) + 1) / k)) with (Rabs (ln (eps / 10)) + 1) in HT
      by (field; lra). exact HT. }
  assert (Hlt : - k * sumR dts < ln (eps / 10)).
  { pose proof (Rle_abs (- ln (eps / 10))) as Ha. rewrite Rabs_Ropp in Ha. lra. }
  apply exp_increasing in Hlt. rewrite exp_ln in Hlt by (apply Rdiv_lt_0_compat; lra).
  lra.
Qed.

End DampingFacts.

Section EffectFacts.
Import Effects.

Lemma lights_params time progress ls :
  map l_intensity (map (updateLight time progress) ls) =
  map (lightIntensity time progress)
    (map (fun l => (baseIntensity l, phase l, speed l, isSpotlight l)) ls).
Proof.
  rewrite !map_map. apply map_ext. intros [li py bi ph sp [|]]; reflexivity.
Qed.

Lemma updateVisualEffects_params now progress dt s :
  effectParams (updateVisualEffects now progress dt s) = effectBundle (fxConfig s) now progress.
Proof.
  destruct s as [b v a ls d m bg f e].
  unfold effectParams, updateVisualEffects, fxConfig, effectBundle.
  cbn [bloomIntensity vignetteDarkness aberrationOffset dynamicLights dust mist
       background fogDensity toneMappingExposure].
  rewrite lights_params. destruct b, v, a, f; reflexivity.
Qed.

End EffectFacts.

End MotionProofs.

(* ------------------------------------------------------------------ *)
(** *** Claims on easing, damping and the effect update *)

Module MotionClaims.
Import MotionProofs.

(** C3: [variableSpeedEase] takes 0 at 0, 1 at 1, 0.15 at 0.2 and 0.85 at
    0.8, and is non-decreasing on all of [0, 1]. *)
Theorem variableSpeedEase_values_monotone :
  (Easing.variableSpeedEase 0 == 0 /\ Easing.variableSpeedEase 1 == 1 /\
   Easing.variableSpeedEase (2 # 10) == 15 # 100 /\
   Easing.variableSpeedEase (8 # 10) == 85 # 100)%Q /\
  (forall x y, 0 <= x -> x <= y -> y <= 1 ->
     Easing.variableSpeedEase x <= Easing.variableSpeedEase y)%Q.
Proof.
  split; [repeat split; reflexivity|].
  exact variableSpeedEase_mono.
Qed.

(** C6: for a smoothing constant [k > 0] and non-negative frame times,
    damping from 0 toward the fixed target 10 keeps every intermediate
    value in [0, 10) (it never reaches nor passes 10); the remaining gap is
    [10 * exp (-k * total time)]; and the value tends to 10 as the total
    time grows. *)
Theorem damp_from_0_to_10_bounded_converges (k : R) (dts : list R)
  (Hk : (0 < k)%R) (Hd : Forall (fun dt => 0 <= dt)%R dts) :
  (forall n, 0 <= Damping.dampFrames k 0 10 (firstn n dts) < 10)%R /\
  (10 - Damping.dampFrames k 0 10 dts = 10 * exp (- k * Damping.sumR dts))%R /\
  (forall eps, 0 < eps -> exists T, forall dts',
     Forall (fun dt => 0 <= dt) dts' -> T <= Damping.sumR dts' ->
     10 - Damping.dampFrames k 0 10 dts' < eps)%R.
Proof.
  split; [|split].
  - intros n. apply dampFrames_bounds; [exact Hk|]. now apply Forall_firstn_R.
  - rewrite dampFrames_gap. ring.
  - now apply dampFrames_converges.
Qed.

Lemma damp_from_0_to_10_bounded_converges_witness :
  (0 < 5 / 2)%R /\ Forall (fun dt => 0 <= dt)%R [1 / 60; 1 / 20; 0]%R /\
  (10 - Damping.dampFrames (5 / 2) 0 10 [1 / 60; 1 / 20; 0] =
   10 * exp (- (5 / 2) * Damping.sumR [1 / 60; 1 / 20; 0]))%R.
Proof.
  assert (Hk : (0 < 5 / 2)%R) by lra.
  assert (Hd : Forall (fun dt => 0 <= dt)%R [1 / 60; 1 / 20; 0]%R)
    by (repeat constructor; lra).
  split; [exact Hk|]. split; [exact Hd|].
  exact (proj1 (proj2 (damp_from_0_to_10_bounded_converges (5 / 2) _ Hk Hd))).
Defined.

(** C8: the effect parameters the update writes (bloom, vignette,
    chromatic aberration, light intensities, background, fog density,
    exposure) are a function of the progress argument and the clock
    reading alone, given which effects exist and the lights' constants:
    [deltaTime] and every earlier value of the effect state play no part,
    so two calls with the same progress and clock reading agree. *)
Theorem effect_params_pure :
  (forall now progress dt s,
     Effects.effectParams (Effects.updateVisualEffects now progress dt s) =
     Effects.effectBundle (Effects.fxConfig s) now progress) /\
  (forall now progress dt1 dt2 s1 s2,
     Effects.fxConfig s1 = Effects.fxConfig s2 ->
     Effects.effectParams (Effects.updateVisualEffects now progress dt1 s1) =
     Effects.effectParams (Effects.updateVisualEffects now progress dt2 s2)).
Proof.
  split; [exact updateVisualEffects_params|].
  intros now progress dt1 dt2 s1 s2 Hc.
  rewrite !updateVisualEffects_params, Hc. reflexivity.
Qed.

End MotionClaims.

(* ================================================================== *)
(** ** Further properties of the decoder *)

Module DecoderMoreProofs.
Import Decoder Faces MaterialRuns FaceAttributes DecoderProofs.
Open Scope Z_scope.

Lemma emitFace_groups V q vi nl ul st :
  groups (emitFace V q vi nl ul st) = groups st /\
  currentMaterialIndex (emitFace V q vi nl ul st) = currentMaterialIndex st /\
  currentGroupStart (emitFace V q vi nl ul st) = currentGroupStart st /\
  currentGroupCount (emitFace V q vi nl ul st) =
    (currentGroupCount st + if q then 6 else 3)%nat.
Proof. unfold emitFace, addTriangle. destruct q; simpl; repeat split; lia. Qed.

Lemma emitFace_positions V q vi nl ul st :
  length (positions (emitFace V q vi nl ul st)) =
  (length (positions st) + if q then 18 else 9)%nat.
Proof.
  unfold emitFace, addTriangle. destruct q; simpl; rewrite !length_app, ?getVertex_length; lia.
Qed.

Lemma decodeFace_shape V N U type st rest :
  exists mi vi nl ul,
    fst (decodeFace V N U type st rest) = emitFace V (flag type 1) vi nl ul (trackGroup mi st).
Proof.
  unfold decodeFace, bind; cbv zeta.
  repeat match goal with |- context [match ?m with pair _ _ => _ end] => destruct m end.
  do 4 eexists. reflexivity.
Qed.

Lemma emitFace_inv V q vi nl ul st : groupInv st -> groupInv (emitFace V q vi nl ul st).
Proof.
  intros (Hlen & Hc & Hs). pose proof (emitFace_groups V q vi nl ul st) as (G & _ & S & C).
  pose proof (emitFace_positions V q vi nl ul st) as P.
  unfold groupInv. rewrite G, S, C, P. repeat split; try assumption. destruct q; lia.
Qed.

Lemma parseFaces_inv V N U fuel rest st :
  groupInv st -> (exists n, length (positions st) = 9 * n)%nat ->
  groupInv (parseFaces V N U fuel rest st) /\
  (exists n, length (positions (parseFaces V N U fuel rest st)) = 9 * n)%nat /\
  (length (positions (parseFaces V N U fuel rest st)) <= length (positions st) + 18 * length rest)%nat.
Proof.
  revert rest st; induction fuel as [|fuel IH]; intros rest st H9 [n Hn].
  - simpl. split; [exact H9 | split; [exists n; exact Hn | lia]].
  - destruct rest as [|type rest']; simpl.
    + split; [exact H9 | split; [exists n; exact Hn | lia]].
    + pose proof (decodeFace_shrinks V N U type st rest') as Hsh.
      destruct (decodeFace_shape V N U type st rest') as (mi & vi & nl & ul & Hd).
      destruct (decodeFace V N U type st rest') as [st' rest''] eqn:E. simpl in Hd, Hsh.
      subst st'.
      assert (Hi : groupInv (emitFace V (flag type 1) vi nl ul (trackGroup mi st)))
        by (apply emitFace_inv, trackGroup_inv, H9).
      pose proof (emitFace_positions V (flag type 1) vi nl ul (trackGroup mi st)) as P.
      rewrite trackGroup_positions in P.
      destruct (IH rest'' _ Hi) as (I1 & I2 & I3).
      { exists (n + if flag type 1 then 2 else 1)%nat. rewrite P, Hn. destruct (flag type 1); lia. }
      split; [exact I1 | split; [exact I2 |]]. rewrite P in I3. destruct (flag type 1); lia.
Qed.

Lemma js_neq_sym a b : js_neq a b = js_neq b a.
Proof. destruct a, b; simpl; try reflexivity. now rewrite Z.eqb_sym. Qed.

Lemma js_neq_false a b : js_neq a b = false -> a = b.
Proof.
  destruct a, b; simpl; try discriminate; try reflexivity.
  intros H. apply negb_false_iff, Z.eqb_eq in H. now subst.
Qed.

Lemma js_neq_refl a : js_neq a a = false.
Proof. destruct a; simpl; [now rewrite Z.eqb_refl | reflexivity]. Qed.

Lemma consRun_head m c rs : exists c' rs', consRun m c rs = (m, c') :: rs'.
Proof.
  destruct rs as [|[m' c''] rs]; simpl; [eauto|].
  destruct (js_neq m m'); eauto.
Qed.

Lemma faceStep_groups V N U st f :
  let st' := trackGroup (faceMaterial f) st in
  groups (faceStep V N U st f) = groups st' /\
  currentMaterialIndex (faceStep V N U st f) = currentMaterialIndex st' /\
  currentGroupCount (faceStep V N U st f) = (currentGroupCount st' + 3 * faceTris f)%nat.
Proof.
  cbv zeta. unfold faceStep, faceTris.
  pose proof (emitFace_groups V (flag (f_type f) 1)
    (map Some (f_verts f)) (map (normalLookup N) (map Some (f_vertexNormals f)))
    (map (uvLookup U) (map Some (f_uvs f))) (trackGroup (faceMaterial f) st)) as (G & M & _ & C).
  rewrite G, M, C. repeat split. destruct (flag (f_type f) 1); lia.
Qed.

Lemma fold_runs V N U fs st :
  map groupRun (finalGroups (fold_left (faceStep V N U) fs st)) =
  map groupRun (groups st) ++
    (if (0 <? currentGroupCount st)%nat
     then consRun (currentMaterialIndex st) (currentGroupCount st) (materialRuns fs)
     else materialRuns fs).
Proof.
  revert st; induction fs as [|f fs IH]; intros st; cbn [fold_left materialRuns].
  - unfold finalGroups. destruct (0 <? currentGroupCount st)%nat; simpl;
      [now rewrite map_app | now rewrite app_nil_r].
  - rewrite IH. destruct (faceStep_groups V N U st f) as (G & M & C).
    rewrite G, M, C.
    assert (Hpos : (0 <? currentGroupCount (trackGroup (faceMaterial f) st) + 3 * faceTris f)%nat = true)
      by (apply Nat.ltb_lt; unfold faceTris; destruct (flag _ _); lia).
    rewrite Hpos.
    unfold trackGroup. destruct (js_neq (faceMaterial f) (currentMaterialIndex st)) eqn:E.
    + cbn [groups currentMaterialIndex currentGroupCount]. rewrite Nat.add_0_l.
      destruct (Nat.ltb_spec 0 (currentGroupCount st)) as [Hc|Hc].
      * rewrite map_app, <- app_assoc. f_equal. cbn [map app].
        destruct (consRun_head (faceMaterial f) (3 * faceTris f) (materialRuns fs)) as (c' & rs' & Hh).
        rewrite Hh. unfold groupRun at 1. cbn [consRun g_count g_materialIndex].
        rewrite js_neq_sym, E. reflexivity.
      * reflexivity.
    + apply js_neq_false in E. rewrite <- E.
      destruct (Nat.ltb_spec 0 (currentGroupCount st)) as [Hc|Hc].
      * f_equal. destruct (materialRuns fs) as [|[m' c'] rs]; simpl;
          [rewrite js_neq_refl; reflexivity|].
        destruct (js_neq (faceMaterial f) m'); simpl; rewrite js_neq_refl;
          f_equal; f_equal; lia.
      * f_equal. replace (currentGroupCount st) with 0%nat by lia. reflexivity.
Qed.

Lemma trackGroup_arrays mi st :
  normalArray (trackGroup mi st) = normalArray st /\ uvArray (trackGroup mi st) = uvArray st.
Proof. unfold trackGroup. destruct (js_neq _ _); split; reflexivity. Qed.






Lemma jsget_defined {A} (l : list A) i :
  jsget l i <> None <-> 0 <= i < Z.of_nat (length l).
Proof.
  unfold jsget. destruct (Z.ltb_spec i 0); [split; [intros Hn; exfalso; now apply Hn | lia]|].
  rewrite nth_error_Some, Nat2Z.inj_lt, Z2Nat.id by lia. lia.
Qed.

Lemma getVertex_defined V k :
  Forall (fun x => x <> None) (getVertex V (Some k)) <-> 0 <= k /\ 3 * k + 2 < Z.of_nat (length V).
Proof.
  unfold getVertex. rewrite !Forall_cons_iff, !jsget_defined. split.
  - intros (H1 & H2 & H3 & _). lia.
  - intros H. repeat split; try lia. constructor.
Qed.

Lemma facePositions_defined V f :
  wfFace f ->
  Forall (fun x => x <> None) (facePositions V f) <->
  Forall (fun k => 0 <= k /\ 3 * k + 2 < Z.of_nat (length V)) (f_verts f).
Proof.
  intros (Hv & _). unfold facePositions, numVertices in *.
  destruct (flag (f_type f) 1);
  destruct (f_verts f) as [|a [|b [|c [|d [|e vs]]]]]; simpl in Hv; try discriminate;
  cbn [map nth]; rewrite ?app_nil_r, !Forall_app, ?getVertex_defined, !Forall_cons_iff;
  split; intros; repeat match goal with H : _ /\ _ |- _ => destruct H end;
  repeat split; auto; lia.
Qed.

Lemma normalLookup_defined N n :
  0 <= n -> Forall (fun x => x <> None) (normalLookup N (Some n)).
Proof.
  intros Hn. unfold normalLookup.
  destruct (Z.gtb_spec (Z.of_nat (length N)) (n * 3 + 2)) as [Hl|Hl];
    repeat constructor; try discriminate; apply jsget_defined; lia.
Qed.

Lemma uvLookup_defined U u :
  0 <= u -> Forall (fun x => x <> None) (uvLookup U (Some u)).
Proof.
  intros Hu. unfold uvLookup.
  destruct (Z.gtb_spec (Z.of_nat (length U)) (u * 2 + 1)) as [Hl|Hl];
    repeat constructor; try discriminate; apply jsget_defined; lia.
Qed.

Lemma nth_Forall_lists {A} (P : A -> Prop) (L : list (list A)) k :
  Forall (Forall P) L -> Forall P (nth k L []).
Proof.
  intros H. destruct (nth_in_or_default k L []) as [Hin | Hd]; [|rewrite Hd]; [|constructor].
  rewrite Forall_forall in H. exact (H _ Hin).
Qed.

Lemma lookups_defined {B} (look : option Z -> list (option B)) (ks : list Z) :
  (forall k, 0 <= k -> Forall (fun x => x <> None) (look (Some k))) ->
  Forall (fun k => 0 <= k) ks ->
  Forall (Forall (fun x => x <> None)) (map look (map Some ks)).
Proof.
  intros Hl Hks. induction Hks as [|k ks Hk _ IH]; simpl; constructor; auto.
Qed.

Lemma faceStep_attr_defined V N U st f :
  Forall (fun k => 0 <= k) (f_vertexNormals f) -> Forall (fun k => 0 <= k) (f_uvs f) ->
  Forall (fun x => x <> None) (normalArray st) -> Forall (fun x => x <> None) (uvArray st) ->
  Forall (fun x => x <> None) (normalArray (faceStep V N U st f)) /\
  Forall (fun x => x <> None) (uvArray (faceStep V N U st f)).
Proof.
  intros Hn Hu Hns Hus.
  destruct (trackGroup_arrays (faceMaterial f) st) as (An & Au).
  pose proof (lookups_defined (normalLookup N) _ (normalLookup_defined N) Hn) as Ln.
  pose proof (lookups_defined (uvLookup U) _ (uvLookup_defined U) Hu) as Lu.
  set (LN := map (normalLookup N) (map Some (f_vertexNormals f))) in *.
  set (LU := map (uvLookup U) (map Some (f_uvs f))) in *.
  unfold faceStep, emitFace, addTriangle. fold LN LU.
  destruct (flag (f_type f) 1);
    cbn [normalArray uvArray]; rewrite ?An, ?Au;
    destruct (0 <? length LN)%nat, (0 <? length LU)%nat;
    split; rewrite ?Forall_app; repeat split; auto using nth_Forall_lists.
Qed.

Lemma fold_attr_defined V N U fs st :
  Forall (fun f => Forall (fun k => 0 <= k) (f_vertexNormals f ++ f_uvs f)) fs ->
  Forall (fun x => x <> None) (normalArray st) -> Forall (fun x => x <> None) (uvArray st) ->
  Forall (fun x => x <> None) (normalArray (fold_left (faceStep V N U) fs st)) /\
  Forall (fun x => x <> None) (uvArray (fold_left (faceStep V N U) fs st)).
Proof.
  intros Hfs; revert st; induction Hfs as [|f fs Hf _ IH]; intros st Hn Hu; simpl; [auto|].
  apply Forall_app in Hf as (Hf1 & Hf2).
  destruct (faceStep_attr_defined V N U st f Hf1 Hf2 Hn Hu). now apply IH.
Qed.

Lemma js_neq_true a b : js_neq a b = true -> a <> b.
Proof. intros H ->. now rewrite js_neq_refl in H. Qed.

Lemma consRun_adjacent m c rs :
  (forall i a b, nth_error rs i = Some a -> nth_error rs (S i) = Some b -> fst a <> fst b) ->
  forall i a b, nth_error (consRun m c rs) i = Some a ->
    nth_error (consRun m c rs) (S i) = Some b -> fst a <> fst b.
Proof.
  intros H i a b Ha Hb. destruct rs as [|[m' c'] rs'].
  - cbn [consRun] in Hb. destruct i; cbn in Hb; [discriminate | now destruct i].
  - cbn [consRun] in Ha, Hb. destruct (js_neq m m') eqn:E.
    + destruct i as [|i]; cbn [nth_error] in Ha, Hb.
      * injection Ha as <-. injection Hb as <-. now apply js_neq_true.
      * exact (H i a b Ha Hb).
    + apply js_neq_false in E. subst m'.
      destruct i as [|i]; cbn [nth_error] in Ha, Hb.
      * injection Ha as <-. exact (H 0%nat (m, c') b eq_refl Hb).
      * exact (H (S i) a b Ha Hb).
Qed.

Lemma materialRuns_adjacent fs i a b :
  nth_error (materialRuns fs) i = Some a -> nth_error (materialRuns fs) (S i) = Some b ->
  fst a <> fst b.
Proof.
  revert i a b; induction fs as [|f fs IH]; cbn [materialRuns].
  - intros [|i] a b Ha; discriminate.
  - apply consRun_adjacent, IH.
Qed.

End DecoderMoreProofs.

(* ------------------------------------------------------------------ *)
(** *** Properties of the decoder *)

Module DecoderExtras.
Import Decoder Faces DecoderExamples MaterialRuns FaceAttributes DecoderProofs
  DecoderMoreProofs.
Open Scope Z_scope.

Ltac wf_example :=
  unfold exFaces; repeat (apply Forall_cons || apply Forall_nil);
  unfold wfFace; vm_compute; repeat split.

(** On any face array, malformed or cut short included, the groups still
    tile the emitted vertices from 0 without gap or overlap, the position
    array holds whole triangles (a multiple of 9 entries), and each entry
    of [faces] yields at most two triangles (18 entries). *)
Theorem parse_any_faces_tiles json vertices faces
  (Hv : json_vertices json = Some vertices) (Hf : json_faces json = Some faces) :
  contiguousFrom 0 (geo_groups (fst (parse json))) /\
  (3 * sumCounts (geo_groups (fst (parse json))))%nat
    = length (geo_positions (fst (parse json))) /\
  (exists n, length (geo_positions (fst (parse json))) = 9 * n)%nat /\
  (length (geo_positions (fst (parse json))) <= 18 * length faces)%nat.
Proof.
  unfold parse. rewrite Hv, Hf. cbn [fst geo_groups geo_positions].
  set (normals := match json_normals json with Some n => n | None => [] end).
  set (uvs := match json_uvs json with Some u => u | None => [] end).
  destruct (parseFaces_inv vertices normals uvs (length faces) faces init_dstate)
    as (I1 & I2 & I3).
  { unfold groupInv; simpl. repeat split. }
  { exists 0%nat. reflexivity. }
  destruct (finalGroups_tile _ I1) as [Hc Hs].
  split; [exact Hc|]. split; [exact Hs|]. split; [exact I2|].
  cbn [positions init_dstate length] in I3. lia.
Qed.

Lemma parse_any_faces_tiles_witness :
  json_vertices truncatedPayload = Some exVertices /\
  json_faces truncatedPayload = Some [1] /\
  length (geo_positions (fst (parse truncatedPayload))) = 18%nat /\
  (length (geo_positions (fst (parse truncatedPayload))) <= 18 * length [1])%nat.
Proof.
  split; [reflexivity|]. split; [reflexivity|]. split; [vm_compute; reflexivity|].
  exact (proj2 (proj2 (proj2
    (parse_any_faces_tiles truncatedPayload exVertices [1] eq_refl eq_refl)))).
Defined.

(** On a well-formed face stream the groups are the material runs of the
    face records, in order: each group is a maximal block of consecutive
    faces with the same material index, counted in vertices; so two
    adjacent groups never share a material index. *)
Theorem parse_groups_material_runs json vertices fs
  (Hv : json_vertices json = Some vertices)
  (Hf : json_faces json = Some (encodeFaces fs))
  (Hwf : Forall wfFace fs) :
  map groupRun (geo_groups (fst (parse json))) = materialRuns fs /\
  (forall i g1 g2, nth_error (geo_groups (fst (parse json))) i = Some g1 ->
     nth_error (geo_groups (fst (parse json))) (S i) = Some g2 ->
     g_materialIndex g1 <> g_materialIndex g2).
Proof.
  assert (Hr : map groupRun (geo_groups (fst (parse json))) = materialRuns fs).
  { rewrite (parse_encode json vertices fs Hv Hf Hwf). cbn zeta. cbn [geo_groups].
    rewrite fold_runs. reflexivity. }
  split; [exact Hr|].
  intros i g1 g2 H1 H2.
  apply (materialRuns_adjacent fs i (groupRun g1) (groupRun g2)); rewrite <- Hr, nth_error_map.
  - now rewrite H1.
  - now rewrite H2.
Qed.

Lemma parse_groups_material_runs_witness :
  json_vertices exPayload = Some exVertices /\
  json_faces exPayload = Some (encodeFaces exFaces) /\
  Forall wfFace exFaces /\
  map groupRun (geo_groups (fst (parse exPayload))) = [(Some 1, 3%nat); (Some 0, 6%nat)].
Proof.
  assert (Hwf : Forall wfFace exFaces) by wf_example.
  split; [reflexivity|]. split; [reflexivity|]. split; [exact Hwf|].
  rewrite (proj1 (parse_groups_material_runs exPayload exVertices exFaces
                    eq_refl eq_refl Hwf)).
  reflexivity.
Defined.



(** On a well-formed face stream no position entry is [undefined] exactly
    when every vertex index [k] of every face is in range: [0 <= k] and
    [3k + 2 < vertices.length]. *)
Theorem parse_positions_defined json vertices fs
  (Hv : json_vertices json = Some vertices)
  (Hf : json_faces json = Some (encodeFaces fs))
  (Hwf : Forall wfFace fs) :
  Forall (fun x => x <> None) (geo_positions (fst (parse json))) <->
  Forall (fun f => Forall (fun k => 0 <= k /\ 3 * k + 2 < Z.of_nat (length vertices))
                          (f_verts f)) fs.
Proof.
  rewrite (parse_encode json vertices fs Hv Hf Hwf). cbv zeta. cbn [geo_positions].
  rewrite fold_positions. cbn [positions init_dstate app].
  clear Hf. induction Hwf as [|f fs Hf1 _ IH]; cbn [flat_map]; [split; constructor|].
  rewrite Forall_app, Forall_cons_iff, IH, facePositions_defined by exact Hf1.
  reflexivity.
Qed.

Lemma parse_positions_defined_witness :
  json_vertices exPayload = Some exVertices /\
  json_faces exPayload = Some (encodeFaces exFaces) /\
  Forall wfFace exFaces /\
  Forall (fun x => x <> None) (geo_positions (fst (parse exPayload))).
Proof.
  assert (Hwf : Forall wfFace exFaces) by wf_example.
  split; [reflexivity|]. split; [reflexivity|]. split; [exact Hwf|].
  apply (proj2 (parse_positions_defined exPayload exVertices exFaces eq_refl eq_refl Hwf)).
  unfold exFaces. cbn. repeat constructor; lia.
Defined.

(** On a well-formed face stream whose face-vertex normal and UV indices
    are all non-negative, no entry of the [normal] or [uv] attribute is
    [undefined]: an index past the end of [normals] or [uvs] falls back to
    the default [0, 1, 0] or [0, 0]. *)
Theorem parse_attributes_defined json vertices fs
  (Hv : json_vertices json = Some vertices)
  (Hf : json_faces json = Some (encodeFaces fs))
  (Hwf : Forall wfFace fs)
  (Hidx : Forall (fun f => Forall (fun k => 0 <= k) (f_vertexNormals f ++ f_uvs f)) fs) :
  (forall ns, geo_normals (fst (parse json)) = Some ns -> Forall (fun x => x <> None) ns) /\
  (forall us, geo_uvs (fst (parse json)) = Some us -> Forall (fun x => x <> None) us).
Proof.
  rewrite (parse_encode json vertices fs Hv Hf Hwf). cbv zeta. cbn [geo_normals geo_uvs].
  set (normals := match json_normals json with Some n => n | None => [] end).
  set (uvs := match json_uvs json with Some u => u | None => [] end).
  destruct (fold_attr_defined vertices normals uvs fs init_dstate Hidx) as (Dn & Du);
    [constructor | constructor |].
  split.
  - intros ns. destruct (0 <? _)%nat; [|discriminate]. intros H; injection H as <-. exact Dn.
  - intros us. destruct (0 <? _)%nat; [|discriminate]. intros H; injection H as <-. exact Du.
Qed.

Lemma parse_attributes_defined_witness :
  json_vertices exPayload = Some exVertices /\
  json_faces exPayload = Some (encodeFaces exFaces) /\
  Forall wfFace exFaces /\
  Forall (fun f => Forall (fun k => 0 <= k) (f_vertexNormals f ++ f_uvs f)) exFaces /\
  (forall ns, geo_normals (fst (parse exPayload)) = Some ns -> Forall (fun x => x <> None) ns).
Proof.
  assert (Hwf : Forall wfFace exFaces) by wf_example.
  assert (Hidx : Forall (fun f => Forall (fun k => 0 <= k) (f_vertexNormals f ++ f_uvs f))
                   exFaces) by (unfold exFaces; cbn; repeat constructor; lia).
  split; [reflexivity|]. split; [reflexivity|]. split; [exact Hwf|]. split; [exact Hidx|].
  exact (proj1 (parse_attributes_defined exPayload exVertices exFaces
                  eq_refl eq_refl Hwf Hidx)).
Defined.

End DecoderExtras.

(* ================================================================== *)
(** ** Further properties of the pipeline and the camera sequencer *)

Module PipelineMoreProofs.
Import Pipeline PipelineSpec PipelineProofs.

Lemma camInv_init : camInv init_scene.
Proof.
  constructor; cbn; try reflexivity; try discriminate.
  split; [discriminate | lia].
Qed.

Lemma camInv_same s s' :
  camInv s -> duration s' = duration s -> cameraSpline s' = cameraSpline s ->
  active s' = active s -> progress s' = progress s ->
  transitionsStarted s' = transitionsStarted s -> camInv s'.
Proof.
  intros [] Hd Hc Ha Hp Ht. constructor; rewrite ?Hd, ?Hc, ?Ha, ?Hp, ?Ht; assumption.
Qed.

Lemma Qltb_one x : Qle_bool 1 x = false -> (x < 1)%Q.
Proof.
  intros H. apply Qnot_le_lt. intros Hle. apply Qle_bool_iff in Hle. congruence.
Qed.

Lemma camInv_update now s : camInv s -> camInv (updateCameraTransition now s).
Proof.
  intros C. unfold updateCameraTransition.
  destruct (negb (active s) || negb (cameraSpline s)) eqn:E; [exact C|].
  apply orb_false_iff in E as [Ea Ec]. apply negb_false_iff in Ea, Ec.
  destruct (Qle_bool 1 _) eqn:Q; constructor; cbn; try exact (ci_duration s C);
    try exact (ci_spline s C); try rewrite Ec; try discriminate; try reflexivity.
  - intros _. split; [reflexivity|]. now apply Qltb_one.
  - rewrite Ea. discriminate.
Qed.

Lemma camInv_animate now s : camInv s -> camInv (animate now s).
Proof. intros C. unfold animate. destruct (_ && _); [now apply camInv_update | exact C]. Qed.

Lemma camInv_step s e : camInv s -> camInv (step s e).
Proof.
  intros C. destruct e as [a o now|now|cb now| |]; cbn [step].
  - destruct (in_dec asset_eq_dec a (pending s)) as [Hin|Hout];
      [|unfold settle; destruct (in_dec _ _ _); [contradiction | exact C]].
    rewrite settle_spec by exact Hin. cbv zeta.
    destruct (_ && _ && _).
    + constructor; cbn; try exact (ci_duration s C); try discriminate; try reflexivity.
      * split; [intros _; lia | reflexivity].
      * intros _. split; reflexivity.
    + apply (camInv_same s); reflexivity || exact C.
  - now apply camInv_animate.
  - apply camInv_animate. apply (camInv_same s); reflexivity || exact C.
  - unfold skipTransition. destruct (active s) eqn:Ea; [|exact C].
    constructor; cbn; try exact (ci_duration s C); try exact (ci_spline s C);
      try discriminate; try reflexivity.
    intros Hc. rewrite (proj1 (ci_active s C Ea)) in Hc. discriminate.
  - apply (camInv_same s); reflexivity || exact C.
Qed.

Lemma camInv_reachable es : camInv (run init_scene es).
Proof.
  assert (H : forall s, camInv s -> camInv (run s es)).
  { induction es as [|e es IH]; intros s C; [exact C|]. apply IH, camInv_step, C. }
  apply H, camInv_init.
Qed.

Lemma raw_complete (x : Z) :
  Qle_bool 1 (inject_Z x / inject_Z 18000) = (18000 <=? x)%Z.
Proof.
  destruct (Qle_bool 1 _) eqn:E; symmetry.
  - apply Qle_bool_iff in E. apply Z.leb_le.
    unfold Qle, Qdiv, Qmult, Qinv, inject_Z in E. simpl in E. lia.
  - apply Z.leb_gt. destruct (Z.leb_spec 18000 x) as [H|H]; [|lia].
    assert (Hq : (1 <= inject_Z x / inject_Z 18000)%Q).
    { unfold Qle, Qdiv, Qmult, Qinv, inject_Z. simpl. lia. }
    apply Qle_bool_iff in Hq. congruence.
Qed.

Lemma disposed_step s e :
  isDisposed s = true -> isSkip e = false ->
  isDisposed (step s e) = true /\ completionsFired (step s e) = completionsFired s.
Proof.
  intros Hd Hs. destruct e as [a o now|now|cb now| |]; cbn [step]; try discriminate.
  - destruct (in_dec asset_eq_dec a (pending s)) as [Hin|Hout].
    + rewrite settle_spec by exact Hin. split; [exact Hd | reflexivity].
    + unfold settle. destruct (in_dec _ _ _); [contradiction | split; [exact Hd | reflexivity]].
  - unfold animate. rewrite Hd, andb_false_r. split; [exact Hd | reflexivity].
  - unfold start, animate. cbn. rewrite Hd. split; reflexivity.
  - split; reflexivity.
Qed.

Lemma step_requests_other s e :
  (forall a o now, e <> ESettle a o now) -> requests (step s e) = requests s.
Proof.
  intros Hne. destruct e as [a o now|now|cb now| |]; cbn [step].
  - exfalso. exact (Hne a o now eq_refl).
  - unfold requests, animate, updateCameraTransition.
    destruct (_ && _); [|reflexivity]. destruct (_ || _); [reflexivity|].
    destruct (Qle_bool _ _); reflexivity.
  - unfold requests, start, animate, updateCameraTransition. cbn.
    destruct (negb (isDisposed s)); cbn; [|reflexivity]. destruct (_ || _); [reflexivity|].
    destruct (Qle_bool _ _); reflexivity.
  - unfold requests, skipTransition. destruct (active s); reflexivity.
  - reflexivity.
Qed.

End PipelineMoreProofs.

(* ------------------------------------------------------------------ *)
(** *** Properties of the pipeline and the camera sequencer *)

Module PipelineExtras.
Import Pipeline PipelineSpec PipelineExamples PipelineProofs PipelineMoreProofs.

(** On every scene reachable from the constructor, [isComplete()] holds
    exactly when a transition was started and is no longer active, and
    [getProgress()] never exceeds 1. *)
Theorem isComplete_reachable es :
  let s := run init_scene es in
  isComplete s = cameraSpline s && negb (active s) /\ (getProgress s <= 1)%Q.
Proof.
  intros s. pose proof (camInv_reachable es) as C. fold s in C.
  unfold isComplete, getProgress.
  destruct (active s) eqn:Ea.
  - destruct (ci_active s C Ea) as (_ & Hp). rewrite andb_false_r. split; [|now apply Qlt_le_weak].
    destruct (Qle_bool 1 (progress s)) eqn:E; [|reflexivity].
    apply Qle_bool_iff in E. exfalso. apply (Qlt_not_le _ _ Hp E).
  - rewrite andb_true_r. destruct (cameraSpline s) eqn:Ec.
    + pose proof (ci_done s C Ec Ea) as Hp.
      split; [apply Qle_bool_iff; rewrite Hp; apply Qle_refl | rewrite Hp; apply Qle_refl].
    + pose proof (ci_idle s C Ec) as Hp. split.
      * destruct (Qle_bool 1 (progress s)) eqn:E; [|reflexivity].
        apply Qle_bool_iff in E. rewrite Hp in E. exfalso.
        apply (Qlt_not_le 0 1); [reflexivity | exact E].
      * rewrite Hp. discriminate.
Qed.

(** One animation frame of a reachable, started, undisposed scene with an
    active transition at clock reading [now]: once [duration] (18000 ms)
    has elapsed since [startTime] the transition ends with progress 1 and
    calls [onComplete] once, if one was given; before that it stays active
    with progress [(now - startTime) / 18000]. *)
Theorem frame_completion es now :
  let s := run init_scene es in
  isActive s = true -> isDisposed s = false -> active s = true ->
  active (animate now s) = negb (startTime s + 18000 <=? now)%Z /\
  ((startTime s + 18000 <= now)%Z ->
     progress (animate now s) = 1%Q /\
     completionsFired (animate now s) = (completionsFired s + if onComplete s then 1 else 0)%nat) /\
  ((now < startTime s + 18000)%Z ->
     progress (animate now s) = (inject_Z (now - startTime s) / inject_Z 18000)%Q).
Proof.
  intros s Hi Hd Ha. pose proof (camInv_reachable es) as C. fold s in C.
  destruct (ci_active s C Ha) as (Hc & _). pose proof (ci_duration s C) as Hdu.
  unfold animate, updateCameraTransition. rewrite Hi, Hd, Ha, Hc, Hdu. cbn [andb negb orb].
  rewrite raw_complete.
  destruct (Z.leb_spec 18000 (now - startTime s)) as [H|H];
    destruct (Z.leb_spec (startTime s + 18000) now) as [H'|H']; try lia; cbn.
  - split; [reflexivity|]. split; [intros _; split; [reflexivity | destruct (onComplete s); lia] | lia].
  - split; [reflexivity|]. split; [lia | reflexivity].
Qed.

Lemma frame_completion_witness :
  isActive (run init_scene (allSettled ++ [EStart true 100])) = true /\
  isDisposed (run init_scene (allSettled ++ [EStart true 100])) = false /\
  active (run init_scene (allSettled ++ [EStart true 100])) = true /\
  progress (animate 20000 (run init_scene (allSettled ++ [EStart true 100]))) = 1%Q.
Proof.
  assert (H1 : isActive (run init_scene (allSettled ++ [EStart true 100])) = true)
    by (vm_compute; reflexivity).
  assert (H2 : isDisposed (run init_scene (allSettled ++ [EStart true 100])) = false)
    by (vm_compute; reflexivity).
  assert (H3 : active (run init_scene (allSettled ++ [EStart true 100])) = true)
    by (vm_compute; reflexivity).
  split; [exact H1|]. split; [exact H2|]. split; [exact H3|].
  assert (Hle : (startTime (run init_scene (allSettled ++ [EStart true 100])) + 18000
                  <= 20000)%Z) by (vm_compute; discriminate).
  exact (proj1 (proj1 (proj2 (frame_completion (allSettled ++ [EStart true 100]) 20000
                                 H1 H2 H3)) Hle)).
Defined.

(** Once the scene is disposed, no later settlement, frame, [start] or
    further [dispose] revives it or calls [onComplete]; only
    [skipTransition], which does not check [isDisposed], still can. *)
Theorem disposed_run s es
  (Hd : isDisposed s = true)
  (Hes : forallb (fun e => negb (isSkip e)) es = true) :
  isDisposed (run s es) = true /\ completionsFired (run s es) = completionsFired s.
Proof.
  revert s Hd; induction es as [|e es IH]; intros s Hd; [split; [exact Hd | reflexivity]|].
  cbn [forallb] in Hes. apply andb_true_iff in Hes as [He Hes]. apply negb_true_iff in He.
  destruct (disposed_step s e Hd He) as (H1 & H2).
  destruct (IH Hes (step s e) H1) as (H3 & H4).
  change (run s (e :: es)) with (run (step s e) es).
  split; [exact H3 | rewrite H4; exact H2].
Qed.

Lemma disposed_run_witness :
  isDisposed (dispose init_scene) = true /\
  forallb (fun e => negb (isSkip e))
    (allSettled ++ [EStart true 100; EFrame 20000; EDispose]) = true /\
  completionsFired (run (dispose init_scene)
    (allSettled ++ [EStart true 100; EFrame 20000; EDispose])) = 0%nat.
Proof.
  assert (Hd : isDisposed (dispose init_scene) = true) by reflexivity.
  assert (Hes : forallb (fun e => negb (isSkip e))
                  (allSettled ++ [EStart true 100; EFrame 20000; EDispose]) = true)
    by reflexivity.
  split; [exact Hd|]. split; [exact Hes|].
  exact (proj2 (disposed_run (dispose init_scene) _ Hd Hes)).
Defined.

(** When no request is in flight on a reachable scene, all six counted
    assets have settled, [loadedAssets] is exactly 6 and the camera
    transition has been started exactly once. *)
Theorem quiescent_complete es :
  let s := run init_scene es in
  pending s = [] ->
  incl countedAssets (settled s) /\ loadedAssets s = 6%nat /\ transitionsStarted s = 1%nat.
Proof.
  intros s Hp. pose proof (inv_reachable es) as I. fold s in I.
  assert (Hreq : forall x, In x (requests s) -> In x (settled s)).
  { intros x. unfold requests. rewrite Hp, app_nil_r. auto. }
  assert (Hb : In Building (settled s)) by exact (Hreq _ (inv_building s I)).
  assert (Hinc : incl countedAssets (settled s)).
  { intros x [<-|Hx]; [exact Hb|]. apply Hreq. apply (inv_deps_all s I Hb). exact Hx. }
  assert (H6 : (6 <= loadedAssets s)%nat).
  { rewrite (inv_loaded s I). change 6%nat with (length countedAssets).
    apply NoDup_incl_length.
    - repeat constructor; simpl; intuition discriminate.
    - intros x Hx. apply filter_In. split; [exact (Hinc x Hx)|].
      destruct Hx as [<-|[<-|[<-|[<-|[<-|[<-|[]]]]]]]; reflexivity. }
  pose proof (loaded_le_6 s I) as Hle.
  split; [exact Hinc|]. split; [lia|].
  rewrite (inv_started s I). destruct (Nat.leb_spec 6 (loadedAssets s)); [reflexivity | lia].
Qed.

Lemma quiescent_complete_witness :
  pending (run init_scene allSettled) = [] /\
  transitionsStarted (run init_scene allSettled) = 1%nat.
Proof.
  assert (Hp : pending (run init_scene allSettled) = []) by (vm_compute; reflexivity).
  split; [exact Hp|].
  exact (proj2 (proj2 (quiescent_complete _ Hp))).
Defined.

(** The terrain texture is requested only by the settlement of the terrain
    request whose JSON parsed, so at most once and only after the terrain
    settled; its own settlement never counts toward [loadedAssets]. *)
Theorem texture_request es e :
  let s := run init_scene es in
  (In Panchromatic (requests s) -> In Terrain (settled s)) /\
  (~ In Panchromatic (requests s) -> In Panchromatic (requests (step s e)) ->
     exists now, e = ESettle Terrain (Delivered true) now) /\
  (forall o now, loadedAssets (step s (ESettle Panchromatic o now)) = loadedAssets s).
Proof.
  intros s. pose proof (inv_reachable es) as I. fold s in I.
  split; [exact (inv_tex s I)|]. split.
  - intros Hnot Hnew.
    destruct e as [a o now|now|cb now| |];
      [| rewrite step_requests_other in Hnew by discriminate; contradiction .. ].
    cbn [step] in Hnew.
    destruct (in_dec asset_eq_dec a (pending s)) as [Hin|Hout];
      [|unfold settle in Hnew; destruct (in_dec _ _ _); contradiction].
    pose proof (settle_requests a o now s Hin (NoDup_app_remove_l _ _ (inv_nodup s I))) as Hperm.
    apply (Permutation_in _ Hperm), in_app_iff in Hnew as [Hr|Hn]; [contradiction|].
    destruct a; [| | destruct o as [[|]|] | | | |]; simpl in Hn; try contradiction.
    + exfalso. unfold dependents in Hn. simpl in Hn. intuition discriminate.
    + now exists now.
  - intros o now. cbn [step].
    destruct (in_dec asset_eq_dec Panchromatic (pending s)) as [Hin|Hout].
    + rewrite settle_spec by exact Hin. reflexivity.
    + unfold settle. destruct (in_dec _ _ _); [contradiction | reflexivity].
Qed.

End PipelineExtras.

(* ================================================================== *)
(** ** Further properties of easing, damping and the effect update *)

Module MotionMoreProofs.
Import Easing Damping Effects MotionProofs.
Local Open Scope R_scope.

Lemma sine_part t : sin (t * PI - PI / 2) = - cos (t * PI).
Proof. rewrite sin_minus, sin_PI2, cos_PI2. ring. Qed.

Lemma lim_eq f x l1 l2 : derivable_pt_lim f x l1 -> l1 = l2 -> derivable_pt_lim f x l2.
Proof. now intros H <-. Qed.

Lemma poly_deriv x : derivable_pt_lim (fun t => t * t * t * (t * (t * 6 - 15) + 10)) x
  (30 * (x * x * (x - 1) * (x - 1))).
Proof.
  change (fun t => t * t * t * (t * (t * 6 - 15) + 10)) with
    (id * id * id * (id * (id * fct_cte 6 - fct_cte 15) + fct_cte 10))%F.
  eapply lim_eq.
  - repeat (apply derivable_pt_lim_mult || apply derivable_pt_lim_plus ||
            apply derivable_pt_lim_minus || apply derivable_pt_lim_opp || apply derivable_pt_lim_id ||
            apply derivable_pt_lim_const).

  - unfold id, fct_cte, mult_fct, plus_fct, minus_fct, opp_fct. ring.
Qed.

Lemma poly_mono a b : 0 <= a -> a <= b -> b <= 1 -> a * a * a * (a * (a * 6 - 15) + 10) <= b * b * b * (b * (b * 6 - 15) + 10).
Proof.
  intros Ha Hab Hb.
  set (pr := fun x => exist (fun l => derivable_pt_lim (fun t => t * t * t * (t * (t * 6 - 15) + 10)) x l) _ (poly_deriv x) : derivable_pt (fun t => t * t * t * (t * (t * 6 - 15) + 10)) x).
  destruct (Req_dec a b) as [<-|Hne]; [apply Rle_refl|].
  refine (derive_increasing_interv_var 0 1 (fun t => t * t * t * (t * (t * 6 - 15) + 10)) pr _ _ a b _ _ _); [lra | | lra | lra | lra].
  intros t _. unfold pr, derive_pt; cbn. 
  assert (0 <= t * t * (t - 1) * (t - 1)) by (replace (t * t * (t - 1) * (t - 1)) with ((t * (t - 1)) * (t * (t - 1))) by ring; apply Rle_0_sqr).
  lra.
Qed.

Lemma ultraSmoothEase_0 : ultraSmoothEase 0 = 0.
Proof. unfold ultraSmoothEase. cbv zeta. rewrite sine_part, Rmult_0_l, cos_0. lra. Qed.

Lemma ultraSmoothEase_sym t : ultraSmoothEase (1 - t) = 1 - ultraSmoothEase t.
Proof.
  unfold ultraSmoothEase. cbv zeta. rewrite !sine_part.
  assert (E : (1 - t) * PI = - (t * PI) + PI) by ring.
  rewrite E, neg_cos, cos_neg. unfold Q2R; cbn [QArith_base.Qnum QArith_base.Qden]. field.
Qed.

Lemma ultraSmoothEase_strict a b : 0 <= a -> a < b -> b <= 1 -> ultraSmoothEase a < ultraSmoothEase b.
Proof.
  intros Ha Hab Hb. unfold ultraSmoothEase. cbv zeta. rewrite !sine_part.
  pose proof (poly_mono a b Ha (Rlt_le _ _ Hab) Hb).
  assert (cos (b * PI) < cos (a * PI)).
  { pose proof PI_RGT_0. apply cos_decreasing_1; nra. }
  lra.
Qed.

Lemma sin_half_bounds x : 0 <= sin x * 0.5 + 0.5 <= 1.
Proof. pose proof (SIN_bound x). lra. Qed.

Lemma updateLight_range time p l : 0 <= p <= 1 -> 0 <= baseIntensity l ->
  0 <= l_intensity (updateLight time p l) <= baseIntensity l /\
  baseIntensity (updateLight time p l) = baseIntensity l.
Proof.
  intros Hp Hb. unfold updateLight. cbv zeta.
  pose proof (sin_half_bounds (time * speed l + phase l)) as S.
  set (u := sin (time * speed l + phase l) * 0.5 + 0.5) in *.
  assert (0 <= p * u <= 1) by (split; nra).
  assert (0 <= u * (0.3 + p * 0.7) <= 1) by (split; nra).
  destruct (isSpotlight l); cbn [l_intensity baseIntensity]; (split; [|reflexivity]).
  - rewrite Rmult_assoc. split; nra.
  - rewrite Rmult_assoc. split; nra.
Qed.

End MotionMoreProofs.

(* ------------------------------------------------------------------ *)
(** *** Properties of easing, damping and the effect update *)

Module MotionExtras.
Import Easing Damping Effects MotionProofs MotionMoreProofs.
Local Open Scope R_scope.

(** [ultraSmoothEase] maps 0 to 0 and 1 to 1, is point-symmetric about
    (1/2, 1/2), [f(1 - t) = 1 - f(t)], and is strictly increasing on
    [0, 1]. *)
Theorem ultraSmoothEase_shape :
  ultraSmoothEase 0 = 0 /\ ultraSmoothEase 1 = 1 /\
  (forall t, ultraSmoothEase (1 - t) = 1 - ultraSmoothEase t) /\
  (forall a b, 0 <= a -> a < b -> b <= 1 -> ultraSmoothEase a < ultraSmoothEase b).
Proof.
  split; [exact ultraSmoothEase_0|]. split.
  - replace 1 with (1 - 0) at 1 by ring. rewrite ultraSmoothEase_sym, ultraSmoothEase_0. ring.
  - split; [exact ultraSmoothEase_sym | exact ultraSmoothEase_strict].
Qed.

(** Damping toward a fixed target frame after frame equals one damping
    step over the summed frame times; and for a non-negative smoothing and
    frame time one [damp] step lands between the current value and the
    target, never overshooting, and never moves away from the target. *)
Theorem damp_compose_bounded :
  (forall k c g dts, dampFrames k c g dts = damp c g k (sumR dts)) /\
  (forall c g k dt, 0 <= k -> 0 <= dt ->
     Rmin c g <= damp c g k dt <= Rmax c g /\
     Rabs (g - damp c g k dt) <= Rabs (g - c)).
Proof.
  split.
  - intros k c g dts. pose proof (dampFrames_gap k c g dts).
    pose proof (damp_gap c g k (sumR dts)). lra.
  - intros c g k dt Hk Hdt. pose proof (damp_gap c g k dt) as G.
    pose proof (exp_pos (- k * dt)) as Hp.
    assert (exp (- k * dt) <= 1) by (apply exp_le_1; nra).
    split.
    + unfold Rmin, Rmax; destruct (Rle_dec c g); nra.
    + rewrite G, Rabs_mult, (Rabs_right (exp _)) by lra.
      pose proof (Rabs_pos (g - c)). nra.
Qed.

(** For a progress in [0, 1] and lights with non-negative base intensity,
    the update keeps every effect parameter in its range: bloom in
    [0.3, 1.1], vignette darkness in [0.5, 0.8], both aberration offsets
    equal and in [0.0002, 0.0008], each light's intensity in
    [0, baseIntensity], mist opacity in [0.15, 0.3], fog density in
    [0.006, 0.01] and exposure in [0.6, 1.2], whatever the clock reading. *)
Theorem visual_effects_ranges now p dt s
  (Hp : 0 <= p <= 1)
  (Hl : Forall (fun l => 0 <= baseIntensity l) (dynamicLights s)) :
  (forall b, bloomIntensity (updateVisualEffects now p dt s) = Some b -> 0.3 <= b <= 1.1) /\
  (forall v, vignetteDarkness (updateVisualEffects now p dt s) = Some v -> 0.5 <= v <= 0.8) /\
  (forall a1 a2, aberrationOffset (updateVisualEffects now p dt s) = Some (a1, a2) ->
     a1 = a2 /\ 0.0002 <= a1 <= 0.0008) /\
  Forall (fun l => 0 <= l_intensity l <= baseIntensity l)
    (dynamicLights (updateVisualEffects now p dt s)) /\
  (forall r o, mist (updateVisualEffects now p dt s) = Some (r, o) -> 0.15 <= o <= 0.3) /\
  (forall f, fogDensity (updateVisualEffects now p dt s) = Some f -> 0.006 <= f <= 0.01) /\
  0.6 <= toneMappingExposure (updateVisualEffects now p dt s) <= 1.2.
Proof.
  unfold updateVisualEffects; cbv zeta;
  cbn [bloomIntensity vignetteDarkness aberrationOffset dynamicLights mist fogDensity
       toneMappingExposure].
  split; [intros b Hb; destruct (bloomIntensity s); inversion Hb; lra|].
  split; [intros v Hv; destruct (vignetteDarkness s); inversion Hv; lra|].
  split; [intros a1 a2 Ha; destruct (aberrationOffset s); inversion Ha;
          pose proof (SIN_bound (now * 0.001 * 2)); split; [reflexivity | lra]|].
  split.
  { apply Forall_map. eapply Forall_impl; [|exact Hl]. intros l Hb.
    pose proof (updateLight_range (now * 0.001) p l Hp Hb) as [R E]. rewrite E. exact R. }
  split; [intros r o Ho; destruct (mist s); inversion Ho; lra|].
  split; [intros f Hf; destruct (fogDensity s); inversion Hf; lra|].
  lra.
Qed.

Lemma visual_effects_ranges_witness :
  0 <= 1 / 2 <= 1 /\
  Forall (fun l => 0 <= baseIntensity l)
    (dynamicLights (mkFx (Some 0) None None [mkLight 0 5 2 0 1 true] None None (0, 0, 0)
                      None 1)) /\
  Forall (fun l => 0 <= l_intensity l <= baseIntensity l)
    (dynamicLights (updateVisualEffects 1000 (1 / 2) (1 / 60)
       (mkFx (Some 0) None None [mkLight 0 5 2 0 1 true] None None (0, 0, 0) None 1))).
Proof.
  assert (Hp : 0 <= 1 / 2 <= 1) by lra.
  assert (Hl : Forall (fun l => 0 <= baseIntensity l)
    (dynamicLights (mkFx (Some 0) None None [mkLight 0 5 2 0 1 true] None None (0, 0, 0)
                      None 1))) by (repeat constructor; cbn; lra).
  split; [exact Hp|]. split; [exact Hl|].
  exact (proj1 (proj2 (proj2 (proj2 (visual_effects_ranges 1000 (1 / 2) (1 / 60) _ Hp Hl))))).
Defined.


Section StrictEasing.
Local Open Scope Q_scope.

Ltac qcase x c := let E := fresh "E" in
  destruct (Qltb x c) eqn:E; [apply Qltb_spec in E | apply Qltb_false in E].

(** [variableSpeedEase] is strictly increasing on [0, 1]: the camera's
    target point never stalls or moves back along the spline while the
    transition runs. *)
Theorem variableSpeedEase_strict x y
  (H0 : 0 <= x) (Hxy : x < y) (H1 : y <= 1) :
  variableSpeedEase x < variableSpeedEase y.
Proof.
  unfold variableSpeedEase, easeInQuad, easeOutQuad.
  repeat match goal with |- context [Qltb ?a ?b] => qcase a b end;
  cbv zeta; unfold Qdiv;
  try setoid_replace (/ (2 # 10)) with 5 by reflexivity;
  try setoid_replace (/ (6 # 10)) with (10 # 6) by reflexivity;
  nra.
Qed.

Lemma variableSpeedEase_strict_witness :
  0 <= 1 # 10 /\ 1 # 10 < 9 # 10 /\ 9 # 10 <= 1 /\
  variableSpeedEase (1 # 10) < variableSpeedEase (9 # 10).
Proof.
  assert (H0 : 0 <= 1 # 10) by (vm_compute; discriminate).
  assert (Hxy : 1 # 10 < 9 # 10) by reflexivity.
  assert (H1 : 9 # 10 <= 1) by (vm_compute; discriminate).
  split; [exact H0|]. split; [exact Hxy|]. split; [exact H1|].
  exact (variableSpeedEase_strict _ _ H0 Hxy H1).
Defined.

End StrictEasing.

End MotionExtras.
